(** * Shape-Shifter: the mosaic partition and its stable styling

    A shallow embedding of [src/app.component.ts]: the recursive
    [partition] closure of [regenerateLayout], the index shuffle that
    follows it, and the [generatedShapes] derivation.

    Conventions of the embedding.
    - A TypeScript [number] that holds a coordinate, an extent, a size
      bound, a percentage or a random draw is an exact rational ([Q]);
      comparisons are the boolean tests of [Q], [Math.floor] is [Qfloor]
      and [Math.round] rounds half up.
    - Counters, array positions and shape ids are natural numbers; the
      canvas extents [offsetWidth] and [offsetHeight] are integers, as the
      DOM defines them.
    - [Math.random()] reads a fixed stream [rnd : nat -> Q] at a cursor kept
      in the state; the cursor advances with every call.
    - The recursion of [partition] is driven by fuel: [None] means that the
      fuel ran out before the call returned.
    - [NaN] and the infinities are not represented, and arithmetic is
      exact: the rounding of double arithmetic is not computed.  Theorems
      that give the value of a floored product allow for it through
      [rounding_slack]. *)

From Stdlib Require Import QArith Qround Lqa.
From stdpp Require Import base list gmap strings.

Local Open Scope Q_scope.

(** ** Numbers *)

(** [a >= b], [a <= b] and [a > b] on numbers. *)
Definition num_ge (a b : Q) : bool := Qle_bool b a.
Definition num_le (a b : Q) : bool := Qle_bool a b.
Definition num_gt (a b : Q) : bool := negb (Qle_bool a b).

(** [Math.floor] and [Math.round] (ties go towards plus infinity). *)
Definition Math_floor (q : Q) : Z := Qfloor q.
Definition Math_round (q : Q) : Z := Qfloor (q + (1 # 2)).

(** A number that holds an integer value. *)
Definition is_int (q : Q) : Prop := exists z : Z, q == inject_Z z.

(** ** Data *)

Record BaseShape := mkBaseShape {
  id : nat;
  x : Q;
  y : Q;
  width : Q;
  height : Q
}.

Inductive ShapeType := square | circle.

(** A styled shape: the base shape it spreads, its colour and its type.
    [color] is [None] where the array access would yield [undefined]. *)
Record Shape := mkShape {
  base_of : BaseShape;
  color : option string;
  type : ShapeType
}.

(** ** The partition engine *)

(** What [regenerateLayout] and its closure mutate while they run: the
    cursor of the random stream, [this.shapeIdCounter], and the local array
    [newBaseShapes]. *)
Record Run := mkRun {
  cursor : nat;
  shapeIdCounter : nat;
  newBaseShapes : list BaseShape
}.

Definition tick (st : Run) : Run :=
  mkRun (S (cursor st)) (shapeIdCounter st) (newBaseShapes st).

(** [newBaseShapes.push({ id: this.shapeIdCounter++, x, y, width, height })] *)
Definition push_leaf (px py w h : Q) (st : Run) : Run :=
  mkRun (cursor st) (S (shapeIdCounter st))
        (newBaseShapes st ++ [mkBaseShape (shapeIdCounter st) px py w h]).

Section Partition.
Variable rnd : nat -> Q.
Variables minSize maxSize : Q.

(** [Math.random()] *)
Definition Math_random (st : Run) : Q * Run := (rnd (cursor st), tick st).

(** [width <= maxSize && height <= maxSize && Math.random() > 0.1]: the
    draw happens only when both size tests succeed. *)
Definition shouldStop (w h : Q) (st : Run) : bool * Run :=
  if num_le w maxSize && num_le h maxSize
  then let '(r, st1) := Math_random st in (num_gt r (1 # 10), st1)
  else (false, st).

(** [Math.round(minSize + Math.random() * (extent - (minSize * 2)))] *)
Definition splitAt (extent : Q) (st : Run) : Q * Run :=
  let '(r, st1) := Math_random st in
  (inject_Z (Math_round (minSize + r * (extent - minSize * 2))), st1).

Fixpoint partition (fuel : nat) (px py w h : Q) (st : Run) : option Run :=
  match fuel with
  | O => None
  | S fuel' =>
      let canSplitHorizontally := num_ge h (minSize * 2) in
      let canSplitVertically := num_ge w (minSize * 2) in
      let '(stop, st1) := shouldStop w h st in
      if stop || (negb canSplitHorizontally && negb canSplitVertically)
      then Some (push_leaf px py w h st1)
      else
        let splitVertically :=
          (num_gt w h && canSplitVertically) || negb canSplitHorizontally in
        if splitVertically
        then
          let '(splitX, st2) := splitAt w st1 in
          match partition fuel' px py splitX h st2 with
          | Some st3 => partition fuel' (px + splitX) py (w - splitX) h st3
          | None => None
          end
        else
          let '(splitY, st2) := splitAt h st1 in
          match partition fuel' px py w splitY st2 with
          | Some st3 => partition fuel' px (py + splitY) w (h - splitY) st3
          | None => None
          end
  end.
End Partition.

(** ** The component state and [regenerateLayout] *)

(** The signals of [AppComponent] that the layout and the styling read or
    write. *)
Record App := mkApp {
  colors : list string;
  whiteSpace : Q;
  shapeType : ShapeType;
  minShapeSize : Q;
  maxShapeSize : Q;
  baseShapes : list BaseShape;
  shuffledIndices : list nat
}.

(** How a call of [regenerateLayout] can end in the model: it returns, the
    fuel of the recursion runs out, or an array is read outside its bounds
    (what the component does after such a read is not modelled further). *)
Inductive outcome (A : Type) :=
| Returned (a : A)
| OutOfFuel
| OutOfRange.
Arguments Returned {A} a.
Arguments OutOfFuel {A}.
Arguments OutOfRange {A}.

(** [[indices[i], indices[j]] = [indices[j], indices[i]]]: both elements are
    read first, then [indices[i]] and [indices[j]] are written in that
    order. *)
Definition swap (i j : nat) (indices : list nat) : option (list nat) :=
  match indices !! j, indices !! i with
  | Some aj, Some ai => Some (<[j := ai]> (<[i := aj]> indices))
  | _, _ => None
  end.

Section Shuffle.
Variable rnd : nat -> Q.

(** [Math.floor(Math.random() * (i + 1))] with the draw at cursor [cur]. *)
Definition pick (i cur : nat) : Z :=
  Math_floor (rnd cur * inject_Z (Z.of_nat (i + 1))).

(** The loop [for (let i = indices.length - 1; i > 0; i--)], entered with
    the loop variable equal to [i]. *)
Fixpoint shuffle_loop (i : nat) (indices : list nat) (cur : nat)
  : option (list nat * nat) :=
  match i with
  | O => Some (indices, cur)
  | S i' =>
      let j := pick i cur in
      if (j <? 0)%Z then None
      else match swap i (Z.to_nat j) indices with
           | Some indices' => shuffle_loop i' indices' (S cur)
           | None => None
           end
  end.

(** [Array.from({ length: n }, (_, i) => i)] *)
Definition Array_from_length (n : nat) : list nat := seq 0 n.

(** [indices.map(idx => this.baseShapes()[idx].id)] *)
Definition ids_at (shapes : list BaseShape) (indices : list nat)
  : option (list nat) :=
  mapM (fun idx => id <$> shapes !! idx) indices.

(** [canvasEl] is [None] when the canvas element does not exist yet;
    otherwise it carries [offsetWidth] and [offsetHeight], which the DOM
    defines as integers. *)
Definition regenerateLayout (fuel : nat) (canvasEl : option (Z * Z))
    (cur : nat) (app : App) : outcome (App * nat) :=
  match canvasEl with
  | None => Returned (app, cur)
  | Some (offsetWidth, offsetHeight) =>
      let canvasWidth := inject_Z offsetWidth in
      let canvasHeight := inject_Z offsetHeight in
      match partition rnd (minShapeSize app) (maxShapeSize app) fuel
                      0 0 canvasWidth canvasHeight (mkRun cur 0 []) with
      | None => OutOfFuel
      | Some st =>
          let shapes := newBaseShapes st in
          let indices := Array_from_length (length shapes) in
          match shuffle_loop (length indices - 1) indices (cursor st) with
          | None => OutOfRange
          | Some (indices', cur') =>
              match ids_at shapes indices' with
              | None => OutOfRange
              | Some order =>
                  Returned
                    (mkApp (colors app) (whiteSpace app) (shapeType app)
                           (minShapeSize app) (maxShapeSize app)
                           shapes order,
                     cur')
              end
          end
      end
  end.
End Shuffle.

(** ** The styling derivation [generatedShapes] *)

(** [arr.slice(0, e)] for an integer [e]: a negative [e] counts from the end
    of the array, and the end position is clamped to the array. *)
Definition Array_slice_0 {A} (arr : list A) (e : Z) : list A :=
  let len := Z.of_nat (length arr) in
  let final := if (e <? 0)%Z then Z.max (len + e) 0 else Z.min e len in
  take (Z.to_nat final) arr.

(** [Math.floor(base.length * (whiteSpace / 100))] *)
Definition numToMakeWhite (n : nat) (ws : Q) : Z :=
  Math_floor (inject_Z (Z.of_nat n) * (ws / 100)).

(** [new Set(indices.slice(0, numToMakeWhite))] *)
Definition whiteIndices (n : nat) (indices : list nat) (ws : Q) : gset nat :=
  list_to_set (Array_slice_0 indices (numToMakeWhite n ws)).

(** [colors.length > 0 ? colors : ['#cccccc']] *)
Definition effectiveColors (cs : list string) : list string :=
  if (0 <? length cs)%nat then cs else ["#cccccc"%string].

(** [whiteIndices.has(shape.id) ? '#ffffff'
      : effectiveColors[shape.id % effectiveColors.length]] *)
Definition shape_color (white : gset nat) (eff : list string) (i : nat)
  : option string :=
  if decide (i ∈ white) then Some "#ffffff"%string
  else eff !! (i mod length eff)%nat.

(** The computed signal: every base shape with the current shape type and
    its colour, in the order of [baseShapes]. *)
Definition generatedShapes (app : App) : list Shape :=
  let base := baseShapes app in
  if (length base =? 0)%nat then []
  else
    let white := whiteIndices (length base) (shuffledIndices app)
                              (whiteSpace app) in
    let eff := effectiveColors (colors app) in
    (fun shape => mkShape shape (shape_color white eff (id shape))
                          (shapeType app)) <$> base.

(** The blank fraction of the specification is the percentage over 100. *)
Definition blankFraction (ws : Q) : Q := ws / 100.

(** The shape id is in the blank set of the current state. *)
Definition blank (app : App) (i : nat) : Prop :=
  i ∈ whiteIndices (length (baseShapes app)) (shuffledIndices app)
                   (whiteSpace app).

#[global] Instance blank_dec app i : Decision (blank app i).
Proof. unfold blank. apply _. Defined.

(** ** The update methods

    The handlers read the value of the control that fired.  Here they take
    the value after [parseInt(..., 10)] (an integer) or after the cast to
    [ShapeType]; a control whose text does not parse is not represented. *)

(** [a < b] on numbers. *)
Definition num_lt (a b : Q) : bool := negb (Qle_bool b a).

(** [signal.set(v)] for each signal. *)
Definition set_colors (v : list string) (app : App) : App :=
  mkApp v (whiteSpace app) (shapeType app) (minShapeSize app)
        (maxShapeSize app) (baseShapes app) (shuffledIndices app).

Definition set_whiteSpace (v : Q) (app : App) : App :=
  mkApp (colors app) v (shapeType app) (minShapeSize app)
        (maxShapeSize app) (baseShapes app) (shuffledIndices app).

Definition set_shapeType (v : ShapeType) (app : App) : App :=
  mkApp (colors app) (whiteSpace app) v (minShapeSize app)
        (maxShapeSize app) (baseShapes app) (shuffledIndices app).

Definition set_minShapeSize (v : Q) (app : App) : App :=
  mkApp (colors app) (whiteSpace app) (shapeType app) v
        (maxShapeSize app) (baseShapes app) (shuffledIndices app).

Definition set_maxShapeSize (v : Q) (app : App) : App :=
  mkApp (colors app) (whiteSpace app) (shapeType app) (minShapeSize app)
        v (baseShapes app) (shuffledIndices app).

(** The signals as the component creates them. *)
Definition initial_app : App :=
  mkApp ["#1B998B"; "#2D3047"; "#FFFD82"; "#FF9B71"; "#E84855"]%string
        20 square 30 150 [] [].

(** [updateColor]: the palette is copied and [updatedColors[index]] is
    assigned.  An index inside the array replaces the element, the index
    just past the end appends; a larger index would leave holes in the
    array, which a list of colours cannot hold ([None]). *)
Definition updateColor (index : nat) (newColor : string) (app : App)
  : option App :=
  let currentColors := colors app in
  if (index <? length currentColors)%nat
  then Some (set_colors (<[index := newColor]> currentColors) app)
  else if (index =? length currentColors)%nat
       then Some (set_colors (currentColors ++ [newColor]) app)
       else None.

Definition updateWhiteSpace (value : Z) (app : App) : App :=
  set_whiteSpace (inject_Z value) app.

Definition updateShapeType (value : ShapeType) (app : App) : App :=
  set_shapeType value app.

Section GeometryControls.
Variable rnd : nat -> Q.

(** [updateMinShapeSize]: set the minimum, raise the maximum to it when the
    maximum is below, and lay the canvas out again. *)
Definition updateMinShapeSize (fuel : nat) (canvasEl : option (Z * Z))
    (value : Z) (cur : nat) (app : App) : outcome (App * nat) :=
  let app1 := set_minShapeSize (inject_Z value) app in
  let app2 := if num_lt (maxShapeSize app1) (inject_Z value)
              then set_maxShapeSize (inject_Z value) app1 else app1 in
  regenerateLayout rnd fuel canvasEl cur app2.

(** [updateMaxShapeSize]: set the maximum, lower the minimum to it when the
    minimum is above, and lay the canvas out again. *)
Definition updateMaxShapeSize (fuel : nat) (canvasEl : option (Z * Z))
    (value : Z) (cur : nat) (app : App) : outcome (App * nat) :=
  let app1 := set_maxShapeSize (inject_Z value) app in
  let app2 := if num_gt (minShapeSize app1) (inject_Z value)
              then set_minShapeSize (inject_Z value) app1 else app1 in
  regenerateLayout rnd fuel canvasEl cur app2.
End GeometryControls.

(** ** Palettes with holes

    [updatedColors[index] = newColor] at an index beyond the end of the
    array leaves holes between the old end and [index]; reading a hole
    yields [undefined].  [colors] above holds a palette without holes; the
    definitions below follow the same source lines over an array whose
    elements may be missing ([None]). *)

(** [updateColor] on the palette alone, holes included. *)
Definition updateColor_sparse (index : nat) (newColor : string)
    (currentColors : list (option string)) : list (option string) :=
  if (index <? length currentColors)%nat
  then <[index := Some newColor]> currentColors
  else currentColors ++ replicate (index - length currentColors) None
                     ++ [Some newColor].

(** [colors.length > 0 ? colors : ['#cccccc']] *)
Definition effectiveColors_sparse (cs : list (option string))
  : list (option string) :=
  if (0 <? length cs)%nat then cs else [Some "#cccccc"%string].

(** The colour expression of [generatedShapes]; a hole and an index outside
    the array both read as [undefined]. *)
Definition shape_color_sparse (white : gset nat) (eff : list (option string))
    (i : nat) : option string :=
  if decide (i ∈ white) then Some "#ffffff"%string
  else mjoin (eff !! (i mod length eff)%nat).

(** [generatedShapes] when the [colors] signal holds the palette [cs]. *)
Definition generatedShapes_sparse (cs : list (option string)) (app : App)
  : list Shape :=
  let base := baseShapes app in
  if (length base =? 0)%nat then []
  else
    let white := whiteIndices (length base) (shuffledIndices app)
                              (whiteSpace app) in
    let eff := effectiveColors_sparse cs in
    (fun shape => mkShape shape (shape_color_sparse white eff (id shape))
                          (shapeType app)) <$> base.

(** ** Double arithmetic

    A product of two doubles is the double nearest to the exact product,
    within a relative [2^-53] of it.  Where the component floors a product
    whose factors are themselves rounded ([base.length * (whiteSpace / 100)],
    [Math.random() * (i + 1)]), the floor of the exact product can be off by
    one next to an integer.  Statements that give the value of such a floor
    allow for a relative slack of [2^-51] around the exact product. *)
Definition rounding_slack : Q := Eval vm_compute in Qpower (1 # 2) 51.

(** The leaf passes the size test of the stop rule, or is too short to be
    cut on either axis. *)
Definition leaf_policy (minSize maxSize : Q) (s : BaseShape) : Prop :=
  (width s <= maxSize /\ height s <= maxSize) \/
  (width s < minSize * 2 /\ height s < minSize * 2).


(** * Specification vocabulary *)

(** The contract of [Math.random]: every draw lies in [0, 1). *)
Definition unit_draws (rnd : nat -> Q) : Prop :=
  forall n, 0 <= rnd n /\ rnd n < 1.

(** ** The shape of a partition run

    [Cuts m n px py w h l]: the list [l] is what a returning call
    [partition(px, py, w, h)] pushes when [minSize] is [m] and the id counter
    stands at [n].  A call either pushes its own rectangle, or cuts it along
    one axis at a rounded split point and lets the two recursive calls push
    theirs, left (top) part first. *)

Inductive Cuts (m : Q) : nat -> Q -> Q -> Q -> Q -> list BaseShape -> Prop :=
| Cuts_leaf n px py w h :
    Cuts m n px py w h [mkBaseShape n px py w h]
| Cuts_vertical n px py w h r l1 l2 :
    0 <= r -> r < 1 -> m * 2 <= w ->
    Cuts m n px py (inject_Z (Math_round (m + r * (w - m * 2)))) h l1 ->
    Cuts m (n + length l1)
         (px + inject_Z (Math_round (m + r * (w - m * 2)))) py
         (w - inject_Z (Math_round (m + r * (w - m * 2)))) h l2 ->
    Cuts m n px py w h (l1 ++ l2)
| Cuts_horizontal n px py w h r l1 l2 :
    0 <= r -> r < 1 -> m * 2 <= h ->
    Cuts m n px py w (inject_Z (Math_round (m + r * (h - m * 2)))) l1 ->
    Cuts m (n + length l1)
         px (py + inject_Z (Math_round (m + r * (h - m * 2))))
         w (h - inject_Z (Math_round (m + r * (h - m * 2)))) l2 ->
    Cuts m n px py w h (l1 ++ l2).

(** ** Geometry of the leaves *)

Definition area (s : BaseShape) : Q := width s * height s.

Definition total_area (l : list BaseShape) : Q :=
  foldr (fun s acc => area s + acc) 0 l.

(** The point [(p, q)] lies in the closed rectangle at [(px, py)] of extent
    [w] by [h]. *)
Definition in_rect (px py w h p q : Q) : Prop :=
  (px <= p /\ p <= px + w) /\ (py <= q /\ q <= py + h).

Definition covers (s : BaseShape) (p q : Q) : Prop :=
  in_rect (x s) (y s) (width s) (height s) p q.

Definition interior (s : BaseShape) (p q : Q) : Prop :=
  (x s < p /\ p < x s + width s) /\ (y s < q /\ q < y s + height s).

Definition overlap (a b : BaseShape) : Prop :=
  exists p q, interior a p q /\ interior b p q.

(** The shape lies within the rectangle and has no negative extent. *)
Definition within (px py w h : Q) (s : BaseShape) : Prop :=
  (px <= x s /\ x s + width s <= px + w) /\
  (py <= y s /\ y s + height s <= py + h) /\
  0 <= width s /\ 0 <= height s.

(** The leaves tile the rectangle: areas add up to its area, every leaf is
    a rectangle within it, the closed leaves cover exactly the closed
    rectangle, and no two leaves share an interior point. *)
Definition tiles (px py w h : Q) (l : list BaseShape) : Prop :=
  total_area l == w * h /\
  (forall s, s ∈ l -> within px py w h s) /\
  (forall p q, (exists s, s ∈ l /\ covers s p q) <-> in_rect px py w h p q) /\
  (forall i j a b, l !! i = Some a -> l !! j = Some b -> i <> j ->
                   ~ overlap a b).

(** A run whose cuts all fall inside the rectangle being cut. *)
Inductive Tiling : Q -> Q -> Q -> Q -> list BaseShape -> Prop :=
| Tiling_leaf n px py w h :
    0 <= w -> 0 <= h -> Tiling px py w h [mkBaseShape n px py w h]
| Tiling_vertical px py w h s l1 l2 :
    0 <= s -> s <= w ->
    Tiling px py s h l1 -> Tiling (px + s) py (w - s) h l2 ->
    Tiling px py w h (l1 ++ l2)
| Tiling_horizontal px py w h s l1 l2 :
    0 <= s -> s <= h ->
    Tiling px py w s l1 -> Tiling px (py + s) w (h - s) l2 ->
    Tiling px py w h (l1 ++ l2).

(** ** One pass of Fisher-Yates *)

(** The specification's wording of one step (section 4.2), "swap elements
    at [i] and [j]": the two positions take each other's element and every
    other position is left alone. *)
Definition exchange (i j : nat) (l : list nat) : list nat :=
  imap (fun k v =>
          if decide (k = i) then default v (l !! j)
          else if decide (k = j) then default v (l !! i)
          else v) l.

(** The specification's wording of the pass (section 4.2), to be compared
    with [shuffle_loop]: "iterate index [i] from [length-1] down to [1],
    draw [j] from [[0, i]], swap elements at [i] and [j]"; [choose i] is the
    index drawn at step [i]. *)
Fixpoint fisher_yates_from (choose : nat -> nat) (i : nat) (l : list nat)
  : list nat :=
  match i with
  | O => l
  | S i' => fisher_yates_from choose i' (exchange i (choose i) l)
  end.

Definition fisher_yates (choose : nat -> nat) (l : list nat) : list nat :=
  fisher_yates_from choose (length l - 1) l.

(** The index drawn at step [k] of a pass that starts at step [i] with the
    cursor at [cur]. *)
Definition drawn (rnd : nat -> Q) (cur i : nat) : nat -> nat :=
  fun k => Z.to_nat (pick rnd k (cur + (i - k))).

(** * Concrete runs *)

(** Every draw is 0.05: the stop test never succeeds. *)
Definition draws_low : nat -> Q := fun _ => 1 # 20.

(** Draws alternate between 0.05 and 0.7. *)
Definition draws_mixed : nat -> Q :=
  fun n => if Nat.even n then 1 # 20 else 7 # 10.

(** The component as it is created, with a palette of two colours and no
    layout yet. *)
Definition fresh_app (ws minSize maxSize : Q) : App :=
  mkApp ["#111"; "#222"]%string ws square minSize maxSize [] [].

(** The layout of a 200 by 100 canvas under the mixed draws. *)
Definition laid_out : App :=
  Eval vm_compute in
    match regenerateLayout draws_mixed 50 (Some (200, 100)%Z) 0
                           (fresh_app 0 30 150) with
    | Returned (app', _) => app'
    | _ => fresh_app 0 30 150
    end.

(** The shapes a call left in the component, if it returned. *)
Definition shapes_of (r : outcome (App * nat)) : option (list BaseShape) :=
  match r with
  | Returned (app', _) => Some (baseShapes app')
  | _ => None
  end.

(** The state in which [partition(0, 0, 200, 100)] returns under the mixed
    draws. *)
Definition cut_run : Run :=
  Eval vm_compute in
    default (mkRun 0 0 [])
            (partition draws_mixed 30 150 50 0 0 200 100 (mkRun 0 0 [])).

(** * Verification *)

(** ** Facts about numbers *)

Lemma num_ge_true a b : num_ge a b = true <-> b <= a.
Proof. unfold num_ge. apply Qle_bool_iff. Qed.

Lemma num_le_true a b : num_le a b = true <-> a <= b.
Proof. unfold num_le. apply Qle_bool_iff. Qed.

Lemma num_ge_false a b : num_ge a b = false <-> a < b.
Proof.
  unfold num_ge. split; intros H.
  - apply Qnot_le_lt. intros Hle. apply Qle_bool_iff in Hle. congruence.
  - destruct (Qle_bool b a) eqn:E; [|reflexivity].
    apply Qle_bool_iff in E. lra.
Qed.

Lemma floor_above (q : Q) (z : Z) : inject_Z z <= q -> (z <= Qfloor q)%Z.
Proof.
  intros H. rewrite <- (Qfloor_Z z). by apply Qfloor_resp_le.
Qed.

Lemma floor_below (q : Q) (z : Z) : q < inject_Z z -> (Qfloor q < z)%Z.
Proof.
  intros H. rewrite Zlt_Qlt. eapply Qle_lt_trans; [apply Qfloor_le | exact H].
Qed.

(** Where the split point falls before rounding. *)
Lemma split_point_range (m r e : Q) :
  0 <= r -> r < 1 -> m * 2 <= e ->
  m <= m + r * (e - m * 2) /\ m + r * (e - m * 2) <= e - m.
Proof.
  intros Hr0 Hr1 He.
  assert (H0 : 0 <= r * (e - m * 2)) by (apply Qmult_le_0_compat; lra).
  assert (H1 : r * (e - m * 2) <= 1 * (e - m * 2))
    by (apply Qmult_le_compat_r; lra).
  lra.
Qed.

Lemma is_int_inject (z : Z) : is_int (inject_Z z).
Proof. by exists z. Qed.

Lemma is_int_plus a b : is_int a -> is_int b -> is_int (a + b).
Proof.
  intros [za Ha] [zb Hb]. exists (za + zb)%Z.
  rewrite inject_Z_plus, Ha, Hb. reflexivity.
Qed.

Lemma is_int_minus a b : is_int a -> is_int b -> is_int (a - b).
Proof.
  intros [za Ha] [zb Hb]. exists (za - zb)%Z.
  unfold Z.sub. rewrite inject_Z_plus, inject_Z_opp, Ha, Hb. reflexivity.
Qed.

(** The rounded split of an integer extent stays inside the extent. *)
Lemma round_split_inside (m r e : Q) :
  0 < m -> 0 <= r -> r < 1 -> m * 2 <= e -> is_int e ->
  0 <= inject_Z (Math_round (m + r * (e - m * 2))) /\
  inject_Z (Math_round (m + r * (e - m * 2))) <= e.
Proof.
  intros Hm Hr0 Hr1 He [ez Hez].
  destruct (split_point_range m r e Hr0 Hr1 He) as [Hlo Hhi].
  unfold Math_round. set (sp := m + r * (e - m * 2)) in *.
  split.
  - change 0 with (inject_Z 0). rewrite <- Zle_Qle. apply floor_above.
    change (inject_Z 0) with 0. lra.
  - rewrite Hez. rewrite <- Zle_Qle. apply Z.lt_succ_r, floor_below.
    unfold Z.succ. rewrite inject_Z_plus. change (inject_Z 1) with 1. lra.
Qed.

(** With an integer [minSize], both sides of a rounded split of an integer
    extent are at least [minSize] long. *)
Lemma round_split_min (m r e : Q) :
  0 <= r -> r < 1 -> m * 2 <= e -> is_int e -> is_int m ->
  m <= inject_Z (Math_round (m + r * (e - m * 2))) /\
  m <= e - inject_Z (Math_round (m + r * (e - m * 2))).
Proof.
  intros Hr0 Hr1 He [ez Hez] [mz Hmz].
  destruct (split_point_range m r e Hr0 Hr1 He) as [Hlo Hhi].
  unfold Math_round. set (sp := m + r * (e - m * 2)) in *.
  assert (H1 : (mz <= Qfloor (sp + (1 # 2)))%Z) by (apply floor_above; lra).
  assert (H2 : (Qfloor (sp + (1 # 2)) < ez - mz + 1)%Z).
  { apply floor_below. rewrite inject_Z_plus. unfold Z.sub.
    rewrite inject_Z_plus, inject_Z_opp. change (inject_Z 1) with 1. lra. }
  split.
  - rewrite Hmz at 1. by rewrite <- Zle_Qle.
  - assert (H3 : inject_Z (Qfloor (sp + (1 # 2))) <= inject_Z (ez - mz))
      by (rewrite <- Zle_Qle; lia).
    unfold Z.sub in H3. rewrite inject_Z_plus, inject_Z_opp in H3. lra.
Qed.


Section PartitionFacts.
Variable rnd : nat -> Q.
Variables minSize maxSize : Q.
Hypothesis draws : unit_draws rnd.

Lemma partition_S fuel px py w h st :
  partition rnd minSize maxSize (S fuel) px py w h st =
  let canSplitHorizontally := num_ge h (minSize * 2) in
  let canSplitVertically := num_ge w (minSize * 2) in
  let '(stop, st1) := shouldStop rnd maxSize w h st in
  if stop || (negb canSplitHorizontally && negb canSplitVertically)
  then Some (push_leaf px py w h st1)
  else
    if (num_gt w h && canSplitVertically) || negb canSplitHorizontally
    then
      let '(splitX, st2) := splitAt rnd minSize w st1 in
      match partition rnd minSize maxSize fuel px py splitX h st2 with
      | Some st3 =>
          partition rnd minSize maxSize fuel (px + splitX) py (w - splitX) h st3
      | None => None
      end
    else
      let '(splitY, st2) := splitAt rnd minSize h st1 in
      match partition rnd minSize maxSize fuel px py w splitY st2 with
      | Some st3 =>
          partition rnd minSize maxSize fuel px (py + splitY) w (h - splitY) st3
      | None => None
      end.
Proof. reflexivity. Qed.

(** The stop test only moves the cursor. *)
Lemma shouldStop_frame w h st stop st1 :
  shouldStop rnd maxSize w h st = (stop, st1) ->
  shapeIdCounter st1 = shapeIdCounter st /\
  newBaseShapes st1 = newBaseShapes st /\
  (cursor st <= cursor st1)%nat.
Proof.
  unfold shouldStop, Math_random.
  destruct (num_le w maxSize && num_le h maxSize);
    intros [= <- <-]; simpl; auto with lia.
Qed.

(** Which axis is legal once the call has decided to split. *)
Lemma split_axis_legal (stop cH cV gt : bool) :
  stop || (negb cH && negb cV) = false ->
  (if (gt && cV) || negb cH then cV else cH) = true.
Proof. destruct stop, cH, cV, gt; simpl; congruence. Qed.

Lemma partition_Cuts fuel : forall px py w h st st',
  partition rnd minSize maxSize fuel px py w h st = Some st' ->
  exists l,
    Cuts minSize (shapeIdCounter st) px py w h l /\
    newBaseShapes st' = newBaseShapes st ++ l /\
    shapeIdCounter st' = (shapeIdCounter st + length l)%nat /\
    (cursor st <= cursor st')%nat.
Proof.
  induction fuel as [|fuel IH]; intros px py w h st st' Hrun;
    [discriminate|].
  rewrite partition_S in Hrun. cbv zeta in Hrun.
  destruct (shouldStop rnd maxSize w h st) as [stop st1] eqn:Hstop.
  destruct (shouldStop_frame _ _ _ _ _ Hstop) as (Hid & Hshapes & Hcur).
  destruct (stop || _) eqn:Hleaf.
  { injection Hrun as <-. exists [mkBaseShape (shapeIdCounter st) px py w h].
    simpl. rewrite Hid, Hshapes. repeat split; [constructor | lia | lia]. }
  pose proof (split_axis_legal _ _ _ (num_gt w h) Hleaf) as Hlegal.
  destruct (draws (cursor st1)) as [Hr0 Hr1].
  destruct (_ || negb _) eqn:Haxis; unfold splitAt, Math_random in Hrun;
    apply num_ge_true in Hlegal;
    match type of Hrun with
    | match ?call with _ => _ end = _ =>
        destruct call as [st3|] eqn:Hfirst; [|discriminate]
    end;
    apply IH in Hfirst as (l1 & HC1 & Hs1 & Hn1 & Hc1);
    apply IH in Hrun as (l2 & HC2 & Hs2 & Hn2 & Hc2);
    simpl in *; exists (l1 ++ l2);
    rewrite Hn1, Hid in HC2; rewrite Hid in HC1;
    (split; [|rewrite Hs2, Hs1, Hshapes, length_app, Hn2, Hn1, Hid;
               repeat split; [by rewrite app_assoc | lia | lia]]).
  - eapply Cuts_vertical; eauto.
  - eapply Cuts_horizontal; eauto.
Qed.
End PartitionFacts.

Lemma Cuts_Tiling m n px py w h l :
  0 < m -> Cuts m n px py w h l ->
  0 <= w -> 0 <= h -> is_int w -> is_int h ->
  Tiling px py w h l.
Proof.
  intros Hm HC. induction HC as
    [ n px py w h
    | n px py w h r l1 l2 Hr0 Hr1 Hw _ IH1 _ IH2
    | n px py w h r l1 l2 Hr0 Hr1 Hh _ IH1 _ IH2 ];
    intros Hw0 Hh0 Hwi Hhi.
  - by constructor.
  - destruct (round_split_inside m r w Hm Hr0 Hr1 Hw Hwi) as [Hlo Hhi'].
    eapply Tiling_vertical; [exact Hlo | exact Hhi' | |].
    + apply IH1; auto using is_int_inject.
    + apply IH2; auto using is_int_inject, is_int_minus. lra.
  - destruct (round_split_inside m r h Hm Hr0 Hr1 Hh Hhi) as [Hlo Hhi'].
    eapply Tiling_horizontal; [exact Hlo | exact Hhi' | |].
    + apply IH1; auto using is_int_inject.
    + apply IH2; auto using is_int_inject, is_int_minus. lra.
Qed.

Lemma total_area_app l1 l2 :
  total_area (l1 ++ l2) == total_area l1 + total_area l2.
Proof.
  induction l1 as [|s l1 IH]; simpl; [ring|]. rewrite IH. ring.
Qed.

Lemma Tiling_area px py w h l : Tiling px py w h l -> total_area l == w * h.
Proof.
  induction 1 as [ | ? ? ? ? ? ? ? _ _ _ IH1 _ IH2
                   | ? ? ? ? ? ? ? _ _ _ IH1 _ IH2 ].
  - unfold total_area, area. simpl. ring.
  - rewrite total_area_app, IH1, IH2. ring.
  - rewrite total_area_app, IH1, IH2. ring.
Qed.

Lemma Tiling_within px py w h l :
  Tiling px py w h l -> forall s, s ∈ l -> within px py w h s.
Proof.
  induction 1 as [ | ? ? ? ? ? ? ? Hs0 Hsw _ IH1 _ IH2
                   | ? ? ? ? ? ? ? Hs0 Hsh _ IH1 _ IH2 ]; intros t Ht.
  - apply list_elem_of_singleton in Ht as ->. unfold within. simpl. lra.
  - apply elem_of_app in Ht as [Ht|Ht];
      [apply IH1 in Ht | apply IH2 in Ht]; unfold within in *; lra.
  - apply elem_of_app in Ht as [Ht|Ht];
      [apply IH1 in Ht | apply IH2 in Ht]; unfold within in *; lra.
Qed.

Lemma Tiling_covers px py w h l :
  Tiling px py w h l ->
  forall p q, (exists s, s ∈ l /\ covers s p q) <-> in_rect px py w h p q.
Proof.
  induction 1 as [ | px py w h s l1 l2 Hs0 Hsw _ IH1 _ IH2
                   | px py w h s l1 l2 Hs0 Hsh _ IH1 _ IH2 ]; intros p q.
  - split.
    + intros (t & Ht & Hc). by apply list_elem_of_singleton in Ht as ->.
    + intros Hc. eexists. split; [apply list_elem_of_singleton; reflexivity|].
      exact Hc.
  - split.
    + intros (t & Ht & Hc). apply elem_of_app in Ht as [Ht|Ht].
      * assert (Hin : in_rect px py s h p q) by (apply IH1; eauto).
        unfold in_rect in *. lra.
      * assert (Hin : in_rect (px + s) py (w - s) h p q) by (apply IH2; eauto).
        unfold in_rect in *. lra.
    + intros Hin. destruct (Qlt_le_dec (px + s) p) as [Hp|Hp].
      * destruct (proj2 (IH2 p q)) as (t & Ht & Hc);
          [unfold in_rect in *; lra|].
        exists t. split; [apply elem_of_app; by right | exact Hc].
      * destruct (proj2 (IH1 p q)) as (t & Ht & Hc);
          [unfold in_rect in *; lra|].
        exists t. split; [apply elem_of_app; by left | exact Hc].
  - split.
    + intros (t & Ht & Hc). apply elem_of_app in Ht as [Ht|Ht].
      * assert (Hin : in_rect px py w s p q) by (apply IH1; eauto).
        unfold in_rect in *. lra.
      * assert (Hin : in_rect px (py + s) w (h - s) p q) by (apply IH2; eauto).
        unfold in_rect in *. lra.
    + intros Hin. destruct (Qlt_le_dec (py + s) q) as [Hq|Hq].
      * destruct (proj2 (IH2 p q)) as (t & Ht & Hc);
          [unfold in_rect in *; lra|].
        exists t. split; [apply elem_of_app; by right | exact Hc].
      * destruct (proj2 (IH1 p q)) as (t & Ht & Hc);
          [unfold in_rect in *; lra|].
        exists t. split; [apply elem_of_app; by left | exact Hc].
Qed.

(** Leaves that lie within rectangles on either side of a vertical or a
    horizontal line share no interior point. *)
Lemma overlap_sym a b : overlap a b -> overlap b a.
Proof. intros (p & q & Ha & Hb). exists p, q. by split. Qed.

Lemma apart_vertical (a b : BaseShape) px py w h s :
  within px py s h a -> within (px + s) py (w - s) h b -> ~ overlap a b.
Proof.
  intros Hwa Hwb (p & q & Ha & Hb). unfold within, interior in *. lra.
Qed.

Lemma apart_horizontal (a b : BaseShape) px py w h s :
  within px py w s a -> within px (py + s) w (h - s) b -> ~ overlap a b.
Proof.
  intros Hwa Hwb (p & q & Ha & Hb). unfold within, interior in *. lra.
Qed.

Lemma lookup_within px py w h l i (a : BaseShape) :
  Tiling px py w h l -> l !! i = Some a -> within px py w h a.
Proof.
  intros T Hi. eapply Tiling_within; [exact T|].
  eapply list_elem_of_lookup_2; eauto.
Qed.

Lemma Tiling_disjoint px py w h l :
  Tiling px py w h l ->
  forall i j a b, l !! i = Some a -> l !! j = Some b -> i <> j ->
                  ~ overlap a b.
Proof.
  induction 1 as [ | px py w h s l1 l2 Hs0 Hsw T1 IH1 T2 IH2
                   | px py w h s l1 l2 Hs0 Hsh T1 IH1 T2 IH2 ];
    intros i j a b Hi Hj Hne.
  - apply list_lookup_singleton_Some in Hi as [-> _].
    apply list_lookup_singleton_Some in Hj as [-> _]. done.
  - apply lookup_app_Some in Hi as [Hi|[Hil Hi]];
      apply lookup_app_Some in Hj as [Hj|[Hjl Hj]].
    + eauto.
    + eapply (apart_vertical _ _ px py w h s); eapply lookup_within; eauto.
    + intros Ho%overlap_sym. revert Ho.
      eapply (apart_vertical _ _ px py w h s); eapply lookup_within; eauto.
    + eapply IH2; eauto. lia.
  - apply lookup_app_Some in Hi as [Hi|[Hil Hi]];
      apply lookup_app_Some in Hj as [Hj|[Hjl Hj]].
    + eauto.
    + eapply (apart_horizontal _ _ px py w h s); eapply lookup_within; eauto.
    + intros Ho%overlap_sym. revert Ho.
      eapply (apart_horizontal _ _ px py w h s); eapply lookup_within; eauto.
    + eapply IH2; eauto. lia.
Qed.

Lemma Tiling_tiles px py w h l : Tiling px py w h l -> tiles px py w h l.
Proof.
  intros T. split; [|split; [|split]].
  - exact (Tiling_area _ _ _ _ _ T).
  - exact (Tiling_within _ _ _ _ _ T).
  - exact (Tiling_covers _ _ _ _ _ T).
  - exact (Tiling_disjoint _ _ _ _ _ T).
Qed.

(** ** The index shuffle *)

Lemma insert_Permutation {A} (l : list A) i a b :
  l !! i = Some a -> <[i := b]> l ≡ₚ b :: delete i l.
Proof.
  revert i. induction l as [|c l IH]; intros [|i] Hi; simplify_eq/=.
  - reflexivity.
  - rewrite (IH i Hi). apply perm_swap.
Qed.

(** A swap inside the array succeeds and rearranges it. *)
Lemma swap_Permutation i j (l : list nat) :
  (i < length l)%nat -> (j < length l)%nat ->
  exists l', swap i j l = Some l' /\ l' ≡ₚ l.
Proof.
  intros Hi Hj. unfold swap.
  destruct (lookup_lt_is_Some_2 l i Hi) as [ai Hai].
  destruct (lookup_lt_is_Some_2 l j Hj) as [aj Haj].
  rewrite Hai, Haj. eexists. split; [reflexivity|].
  assert (Hj1 : <[i := aj]> l !! j = Some aj).
  { destruct (decide (i = j)) as [->|Hne].
    - by apply list_lookup_insert_eq.
    - by rewrite list_lookup_insert_ne. }
  etrans; [apply (insert_Permutation _ j aj ai Hj1)|].
  etrans; [|symmetry; apply (delete_Permutation l i ai Hai)].
  apply Permutation_skip.
  apply (Permutation_cons_inv (a := aj)).
  etrans; [symmetry; apply (delete_Permutation _ j aj Hj1)|].
  apply (insert_Permutation l i ai aj Hai).
Qed.

Lemma swap_exchange i j (l l' : list nat) :
  swap i j l = Some l' -> l' = exchange i j l.
Proof.
  unfold swap. destruct (l !! j) as [aj|] eqn:Haj; [|discriminate].
  destruct (l !! i) as [ai|] eqn:Hai; [|discriminate].
  intros [= <-]. apply list_eq. intros k. unfold exchange.
  rewrite list_lookup_imap.
  pose proof (lookup_lt_Some _ _ _ Hai) as Hi.
  pose proof (lookup_lt_Some _ _ _ Haj) as Hj.
  destruct (decide (k = j)) as [->|Hkj].
  - rewrite list_lookup_insert_eq by (by rewrite length_insert).
    rewrite Haj, Hai. simpl.
    case_decide; [subst; congruence | done].
  - rewrite list_lookup_insert_ne by done.
    destruct (decide (k = i)) as [->|Hki].
    + rewrite list_lookup_insert_eq by done. by rewrite Hai, Haj.
    + rewrite list_lookup_insert_ne by done.
      destruct (l !! k); simpl; [|done]. reflexivity.
Qed.

Lemma fisher_yates_from_ext c1 c2 i : forall l,
  (forall k, (1 <= k <= i)%nat -> c1 k = c2 k) ->
  fisher_yates_from c1 i l = fisher_yates_from c2 i l.
Proof.
  induction i as [|i IH]; intros l Hc; simpl; [done|].
  rewrite (Hc (S i)) by lia. apply IH. intros k Hk. apply Hc. lia.
Qed.

Section ShuffleFacts.
Variable rnd : nat -> Q.
Hypothesis draws : unit_draws rnd.

(** The drawn index lies in [[0, i]]. *)
Lemma pick_range i cur : (0 <= pick rnd i cur <= Z.of_nat i)%Z.
Proof.
  unfold pick, Math_floor. destruct (draws cur) as [Hr0 Hr1].
  assert (Hn : 0 < inject_Z (Z.of_nat (i + 1))).
  { change 0 with (inject_Z 0). rewrite <- Zlt_Qlt. lia. }
  split.
  - apply floor_above. change (inject_Z 0) with 0.
    apply Qmult_le_0_compat; lra.
  - apply Z.lt_succ_r, floor_below.
    replace (Z.succ (Z.of_nat i)) with (Z.of_nat (i + 1)) by lia.
    rewrite <- (Qmult_1_l (inject_Z (Z.of_nat (i + 1)))) at 2.
    by apply Qmult_lt_compat_r.
Qed.

Lemma drawn_range cur i k : (drawn rnd cur i k <= k)%nat.
Proof.
  unfold drawn. pose proof (pick_range k (cur + (i - k))). lia.
Qed.

(** The loop of the component is one Fisher-Yates pass: it never leaves the
    array, makes one draw per step, and yields a rearrangement. *)
Lemma shuffle_loop_spec i : forall (l : list nat) cur,
  (i < length l)%nat ->
  shuffle_loop rnd i l cur
    = Some (fisher_yates_from (drawn rnd cur i) i l, (cur + i)%nat) /\
  fisher_yates_from (drawn rnd cur i) i l ≡ₚ l.
Proof.
  induction i as [|i IH]; intros l cur Hi.
  - simpl. by rewrite Nat.add_0_r.
  - cbn [shuffle_loop fisher_yates_from].
    pose proof (pick_range (S i) cur) as Hj.
    destruct (pick rnd (S i) cur <? 0)%Z eqn:Hneg; [lia|].
    destruct (swap_Permutation (S i) (Z.to_nat (pick rnd (S i) cur)) l)
      as (l' & Hswap & Hperm); [lia | lia |].
    rewrite Hswap.
    assert (Hd : drawn rnd cur (S i) (S i) = Z.to_nat (pick rnd (S i) cur)).
    { unfold drawn. by rewrite Nat.sub_diag, Nat.add_0_r. }
    rewrite Hd, <- (swap_exchange _ _ _ _ Hswap).
    destruct (IH l' (S cur)) as [Hloop Hp].
    { apply Permutation_length in Hperm. lia. }
    rewrite (fisher_yates_from_ext (drawn rnd cur (S i)) (drawn rnd (S cur) i)).
    + rewrite Hloop. split; [do 2 f_equal; lia | by etrans].
    + intros k Hk. unfold drawn. do 2 f_equal. lia.
Qed.
End ShuffleFacts.

(** ** Ids and the layout as a whole *)

Lemma Cuts_ids m n px py w h l :
  Cuts m n px py w h l -> id <$> l = seq n (length l).
Proof.
  induction 1 as [ | ? ? ? ? ? ? ? ? _ _ _ _ IH1 _ IH2
                   | ? ? ? ? ? ? ? ? _ _ _ _ IH1 _ IH2 ];
    [done | |]; by rewrite fmap_app, length_app, seq_app, IH1, IH2.
Qed.

Lemma Cuts_nonempty m n px py w h l :
  Cuts m n px py w h l -> (0 < length l)%nat.
Proof.
  induction 1; rewrite ?length_app; simpl; lia.
Qed.

(** Reading the ids back through a rearrangement of [0 .. N-1] is the
    identity when the ids of the shapes are [0 .. N-1] in order. *)
Lemma ids_at_identity (shapes : list BaseShape) (indices : list nat) :
  id <$> shapes = seq 0 (length shapes) ->
  indices ≡ₚ seq 0 (length shapes) ->
  ids_at shapes indices = Some indices.
Proof.
  intros Hids Hperm. unfold ids_at. apply mapM_Some_2, Forall_Forall2_diag.
  apply Forall_forall. intros idx Hidx.
  rewrite Hperm in Hidx. apply elem_of_seq in Hidx.
  assert (Hl : (id <$> shapes) !! idx = Some idx).
  { rewrite Hids. rewrite lookup_seq_lt by lia. done. }
  rewrite list_lookup_fmap in Hl. exact Hl.
Qed.

(** What a call of [regenerateLayout] on an existing canvas amounts to. *)
Lemma regenerateLayout_run rnd fuel W H cur app :
  unit_draws rnd ->
  match regenerateLayout rnd fuel (Some (W, H)) cur app with
  | Returned (app', cur') =>
      exists st,
        partition rnd (minShapeSize app) (maxShapeSize app) fuel
                  0 0 (inject_Z W) (inject_Z H) (mkRun cur 0 []) = Some st /\
        baseShapes app' = newBaseShapes st /\
        Cuts (minShapeSize app) 0 0 0 (inject_Z W) (inject_Z H)
             (baseShapes app') /\
        shuffledIndices app' =
          fisher_yates (drawn rnd (cursor st) (length (baseShapes app') - 1))
                       (id <$> baseShapes app') /\
        shuffledIndices app' ≡ₚ id <$> baseShapes app' /\
        cur' = (cursor st + (length (baseShapes app') - 1))%nat /\
        minShapeSize app' = minShapeSize app /\
        maxShapeSize app' = maxShapeSize app
  | OutOfFuel =>
      partition rnd (minShapeSize app) (maxShapeSize app) fuel
                0 0 (inject_Z W) (inject_Z H) (mkRun cur 0 []) = None
  | OutOfRange => False
  end.
Proof.
  intros draws. unfold regenerateLayout.
  destruct (partition _ _ _ _ _ _ _ _ _) as [st|] eqn:Hrun; [|done].
  destruct (partition_Cuts _ _ _ draws _ _ _ _ _ _ _ Hrun)
    as (l & HC & Hl & _ & _).
  simpl in HC, Hl. rewrite Hl.
  pose proof (Cuts_nonempty _ _ _ _ _ _ _ HC) as Hpos.
  pose proof (Cuts_ids _ _ _ _ _ _ _ HC) as Hids.
  unfold Array_from_length. rewrite length_seq.
  destruct (shuffle_loop_spec rnd draws (length l - 1) (seq 0 (length l))
              (cursor st)) as [Hloop Hperm];
    [rewrite length_seq; lia|].
  rewrite Hloop, (ids_at_identity l _ Hids Hperm). simpl.
  exists st. rewrite Hids. unfold fisher_yates. rewrite length_seq.
  repeat split; done.
Qed.

(** ** Per-leaf consequences of the cuts *)

(** Integer coordinates and extents are preserved by every cut. *)
Lemma Cuts_integral m n px py w h l :
  Cuts m n px py w h l ->
  is_int px -> is_int py -> is_int w -> is_int h ->
  forall s, s ∈ l ->
    is_int (x s) /\ is_int (y s) /\ is_int (width s) /\ is_int (height s).
Proof.
  induction 1 as [ | ? ? ? ? ? ? ? ? _ _ _ _ IH1 _ IH2
                   | ? ? ? ? ? ? ? ? _ _ _ _ IH1 _ IH2 ];
    intros Hx Hy Hw Hh s Hs.
  - by apply list_elem_of_singleton in Hs as ->.
  - apply elem_of_app in Hs as [Hs|Hs]; [apply IH1 | apply IH2];
      auto using is_int_inject, is_int_plus, is_int_minus.
  - apply elem_of_app in Hs as [Hs|Hs]; [apply IH1 | apply IH2];
      auto using is_int_inject, is_int_plus, is_int_minus.
Qed.

(** With integer extents and an integer [minSize], an axis that starts at
    least [minSize] long stays so in every leaf. *)
Lemma Cuts_min_size m n px py w h l :
  is_int m -> Cuts m n px py w h l ->
  is_int w -> is_int h ->
  forall s, s ∈ l -> (m <= w -> m <= width s) /\ (m <= h -> m <= height s).
Proof.
  intros Hm. induction 1 as
    [ | n px py w h r l1 l2 Hr0 Hr1 Hcan _ IH1 _ IH2
      | n px py w h r l1 l2 Hr0 Hr1 Hcan _ IH1 _ IH2 ];
    intros Hw Hh s Hs.
  - by apply list_elem_of_singleton in Hs as ->.
  - destruct (round_split_min m r w Hr0 Hr1 Hcan Hw Hm) as [Hl Hr].
    apply elem_of_app in Hs as [Hs|Hs];
      [apply IH1 in Hs | apply IH2 in Hs];
      auto using is_int_inject, is_int_minus; destruct Hs; split; auto.
  - destruct (round_split_min m r h Hr0 Hr1 Hcan Hh Hm) as [Hl Hr].
    apply elem_of_app in Hs as [Hs|Hs];
      [apply IH1 in Hs | apply IH2 in Hs];
      auto using is_int_inject, is_int_minus; destruct Hs; split; auto.
Qed.

(** An axis too short to be cut keeps its extent in every leaf. *)
Lemma Cuts_uncut_width m n px py w h l :
  Cuts m n px py w h l -> w < m * 2 -> forall s, s ∈ l -> width s = w.
Proof.
  induction 1 as [ | ? ? ? ? ? ? ? ? _ _ Hcan _ _ _ _
                   | ? ? ? ? ? ? ? ? _ _ _ _ IH1 _ IH2 ]; intros Hw s Hs.
  - by apply list_elem_of_singleton in Hs as ->.
  - lra.
  - apply elem_of_app in Hs as [Hs|Hs]; auto.
Qed.

Lemma Cuts_uncut_height m n px py w h l :
  Cuts m n px py w h l -> h < m * 2 -> forall s, s ∈ l -> height s = h.
Proof.
  induction 1 as [ | ? ? ? ? ? ? ? ? _ _ _ _ IH1 _ IH2
                   | ? ? ? ? ? ? ? ? _ _ Hcan _ _ _ _ ]; intros Hh s Hs.
  - by apply list_elem_of_singleton in Hs as ->.
  - apply elem_of_app in Hs as [Hs|Hs]; auto.
  - lra.
Qed.

(** A rectangle too short on both axes is pushed as it is. *)
Lemma Cuts_uncut m n px py w h l :
  Cuts m n px py w h l -> w < m * 2 -> h < m * 2 ->
  l = [mkBaseShape n px py w h].
Proof. destruct 1; [done | lra | lra]. Qed.

(** ** Termination *)

Section Termination.
Variable rnd : nat -> Q.
Variables minSize maxSize : Q.
Hypothesis draws : unit_draws rnd.
Hypothesis big_enough : 1 # 2 < minSize.

End Termination.

(** ** The styling derivation *)

Lemma effectiveColors_nonempty cs : (0 < length (effectiveColors cs))%nat.
Proof.
  unfold effectiveColors. destruct (0 <? length cs)%nat eqn:E; simpl; [|lia].
  by apply Nat.ltb_lt.
Qed.

(** A palette slot always holds a colour. *)
Lemma palette_slot_defined cs i :
  is_Some (effectiveColors cs !! (i mod length (effectiveColors cs))%nat).
Proof.
  apply lookup_lt_is_Some_2, Nat.mod_upper_bound.
  pose proof (effectiveColors_nonempty cs). lia.
Qed.

(** The derivation styles the shapes one by one, in their order. *)
Lemma generatedShapes_lookup app i b :
  baseShapes app !! i = Some b ->
  generatedShapes app !! i =
    Some (mkShape b
            (shape_color
               (whiteIndices (length (baseShapes app)) (shuffledIndices app)
                             (whiteSpace app))
               (effectiveColors (colors app)) (id b))
            (shapeType app)).
Proof.
  intros Hb. unfold generatedShapes.
  destruct (length (baseShapes app) =? 0)%nat eqn:E.
  - apply Nat.eqb_eq in E. apply lookup_lt_Some in Hb. lia.
  - by rewrite list_lookup_fmap, Hb.
Qed.

Lemma generatedShapes_length app :
  length (generatedShapes app) = length (baseShapes app).
Proof.
  unfold generatedShapes.
  destruct (length (baseShapes app) =? 0)%nat eqn:E.
  - apply Nat.eqb_eq in E. by rewrite E.
  - by rewrite length_fmap.
Qed.

Lemma numToMakeWhite_nonneg n ws :
  0 <= blankFraction ws -> (0 <= numToMakeWhite n ws)%Z.
Proof.
  intros Hf. unfold numToMakeWhite, Math_floor. apply floor_above.
  change (inject_Z 0) with 0. apply Qmult_le_0_compat; [|exact Hf].
  change 0 with (inject_Z 0). rewrite <- Zle_Qle. lia.
Qed.

Lemma numToMakeWhite_mono n ws1 ws2 :
  blankFraction ws1 <= blankFraction ws2 ->
  (numToMakeWhite n ws1 <= numToMakeWhite n ws2)%Z.
Proof.
  intros Hf. unfold numToMakeWhite, Math_floor. apply Qfloor_resp_le.
  rewrite !(Qmult_comm (inject_Z (Z.of_nat n))).
  apply Qmult_le_compat_r; [exact Hf|].
  change 0 with (inject_Z 0). rewrite <- Zle_Qle. lia.
Qed.

(** For a count that is not negative the slice is a clamped prefix. *)
Lemma Array_slice_0_nonneg {A} (arr : list A) (e : Z) :
  (0 <= e)%Z ->
  Array_slice_0 arr e = take (Z.to_nat (Z.min e (Z.of_nat (length arr)))) arr.
Proof.
  intros He. unfold Array_slice_0.
  destruct (e <? 0)%Z eqn:E; [lia | done].
Qed.

Lemma take_mono_subseteq {A} (l : list A) (a b : nat) :
  (a <= b)%nat -> take a l ⊆ take b l.
Proof.
  intros Hab. replace a with (a `min` b)%nat by lia.
  rewrite <- take_take. apply subseteq_take.
Qed.

(** ** The concrete runs *)

Lemma draws_low_unit : unit_draws draws_low.
Proof. intros n. unfold draws_low. split; lra. Defined.

Lemma draws_mixed_unit : unit_draws draws_mixed.
Proof.
  intros n. unfold draws_mixed. destruct (Nat.even n); split; lra.
Defined.

Lemma laid_out_run :
  regenerateLayout draws_mixed 50 (Some (200, 100)%Z) 0 (fresh_app 0 30 150)
  = Returned (laid_out, 27%nat).
Proof. vm_compute. reflexivity. Defined.

(** * The claims *)

(** C1.  For every run of [regenerateLayout] on a canvas of positive width
    and height with [0 < minSize <= maxSize], the leaves left in
    [baseShapes] tile the canvas: their areas [width * height] add up to the
    area of the canvas exactly, every leaf is a rectangle within the canvas,
    the closed leaves cover exactly the closed canvas rectangle, and no two
    leaves share an interior point. *)
Theorem partition_tiles_canvas rnd fuel (W H : Z) cur app app' cur' :
  unit_draws rnd ->
  (0 < W)%Z -> (0 < H)%Z ->
  0 < minShapeSize app -> minShapeSize app <= maxShapeSize app ->
  regenerateLayout rnd fuel (Some (W, H)) cur app = Returned (app', cur') ->
  tiles 0 0 (inject_Z W) (inject_Z H) (baseShapes app').
Proof.
  intros draws HW HH Hm _ Hrun.
  pose proof (regenerateLayout_run rnd fuel W H cur app draws) as Hspec.
  rewrite Hrun in Hspec. destruct Hspec as (st & _ & _ & HC & _).
  apply Tiling_tiles. eapply Cuts_Tiling; eauto using is_int_inject.
  - change 0 with (inject_Z 0). rewrite <- Zle_Qle. lia.
  - change 0 with (inject_Z 0). rewrite <- Zle_Qle. lia.
Qed.

Lemma partition_tiles_canvas_witness :
  tiles 0 0 (inject_Z 200) (inject_Z 100) (baseShapes laid_out).
Proof.
  apply (partition_tiles_canvas draws_mixed 50 200 100 0 (fresh_app 0 30 150)
           laid_out 27%nat).
  - exact draws_mixed_unit.
  - lia.
  - lia.
  - simpl. lra.
  - simpl. lra.
  - exact laid_out_run.
Defined.

(** C2, as amended.  On an integer canvas and with
    an integer [minSize], [0 < minSize <= maxSize], every leaf of a run is
    at least [minSize] wide when the canvas is at least [minSize] wide, and
    at least [minSize] high when the canvas is at least [minSize] high. *)
Theorem leaves_respect_minSize rnd fuel (W H : Z) cur app app' cur' :
  unit_draws rnd ->
  is_int (minShapeSize app) ->
  0 < minShapeSize app -> minShapeSize app <= maxShapeSize app ->
  regenerateLayout rnd fuel (Some (W, H)) cur app = Returned (app', cur') ->
  forall s, s ∈ baseShapes app' ->
    (minShapeSize app <= inject_Z W -> minShapeSize app <= width s) /\
    (minShapeSize app <= inject_Z H -> minShapeSize app <= height s).
Proof.
  intros draws Hint _ _ Hrun.
  pose proof (regenerateLayout_run rnd fuel W H cur app draws) as Hspec.
  rewrite Hrun in Hspec. destruct Hspec as (st & _ & _ & HC & _).
  eapply Cuts_min_size; eauto using is_int_inject.
Qed.

Lemma leaves_respect_minSize_witness :
  Forall (fun s => (30 <= inject_Z 200 -> 30 <= width s) /\
                   (30 <= inject_Z 100 -> 30 <= height s))
         (baseShapes laid_out).
Proof.
  apply Forall_forall.
  apply (leaves_respect_minSize draws_mixed 50 200 100 0 (fresh_app 0 30 150)
           laid_out 27%nat).
  - exact draws_mixed_unit.
  - exists 30%Z. reflexivity.
  - simpl. lra.
  - simpl. lra.
  - exact laid_out_run.
Defined.

(** C2 as stated fails.  A 100 by 10 canvas with [minSize = 30] is not
    degenerate in the sense of the claim (its width exceeds [minSize]), yet
    all three leaves of this run are 10 high.  And with the non-integer
    [minSize = 1.5] a 3 by 3 canvas is cut into leaves of which some are only
    1 wide or 1 high. *)
Lemma leaves_below_minSize :
  (0 < 30 /\ 30 <= 150 /\ ~ 30 > inject_Z 100 /\
   unit_draws draws_low /\
   shapes_of (regenerateLayout draws_low 50 (Some (100, 10)%Z) 0
                               (fresh_app 0 30 150))
   = Some [mkBaseShape 0 0 0 32 10; mkBaseShape 1 32 0 30 10;
           mkBaseShape 2 62 0 38 10] /\
   10 < 30) /\
  (0 < 3 # 2 /\ 3 # 2 <= 3 /\ ~ 3 # 2 > inject_Z 3 /\
   shapes_of (regenerateLayout draws_low 50 (Some (3, 3)%Z) 0
                               (fresh_app 0 (3 # 2) 3))
   = Some [mkBaseShape 0 0 0 2 2; mkBaseShape 1 2 0 1 2;
           mkBaseShape 2 0 2 2 1; mkBaseShape 3 2 2 1 1] /\
   1 < 3 # 2).
Proof.
  split.
  - split; [lra|]. split; [lra|]. split; [apply Qle_not_lt; by vm_compute|].
    split; [exact draws_low_unit|]. split; [by vm_compute | lra].
  - split; [lra|]. split; [lra|]. split; [apply Qle_not_lt; by vm_compute|].
    split; [by vm_compute | lra].
Qed.





(** A rectangle that can be cut on neither axis is pushed by the first
    call. *)
Lemma partition_uncut rnd minSize maxSize fuel px py w h st :
  w < minSize * 2 -> h < minSize * 2 ->
  exists st',
    partition rnd minSize maxSize (S fuel) px py w h st = Some st'.
Proof.
  intros Hw Hh. rewrite partition_S. cbv zeta.
  destruct (shouldStop rnd maxSize w h st) as [stop st1].
  apply num_ge_false in Hw, Hh. rewrite Hw, Hh. simpl negb. simpl andb.
  rewrite orb_true_r. by eexists.
Qed.

(** C4, as amended.  With [minSize > 0], a run on
    a canvas whose width or height is not positive never leaves the shape
    list empty: every leaf keeps the non-positive extent of the canvas on
    that axis, and when both extents are non-positive the first call pushes
    the canvas rectangle itself, with id 0, without recursing. *)
Theorem degenerate_canvas_still_emits rnd fuel (W H : Z) cur app :
  unit_draws rnd ->
  0 < minShapeSize app ->
  (W <= 0 \/ H <= 0)%Z ->
  (forall app' cur',
     regenerateLayout rnd fuel (Some (W, H)) cur app = Returned (app', cur') ->
     baseShapes app' <> [] /\
     ((W <= 0)%Z -> forall s, s ∈ baseShapes app' -> width s = inject_Z W) /\
     ((H <= 0)%Z -> forall s, s ∈ baseShapes app' -> height s = inject_Z H)) /\
  ((W <= 0)%Z -> (H <= 0)%Z ->
   exists app' cur',
     regenerateLayout rnd (S fuel) (Some (W, H)) cur app
       = Returned (app', cur') /\
     baseShapes app' = [mkBaseShape 0 0 0 (inject_Z W) (inject_Z H)]).
Proof.
  intros draws Hm Hdeg.
  assert (Hshort : forall z : Z, (z <= 0)%Z ->
                     inject_Z z < minShapeSize app * 2).
  { intros z Hz. apply Qle_lt_trans with 0; [|lra].
    change 0 with (inject_Z 0). by rewrite <- Zle_Qle. }
  split.
  - intros app' cur' Hrun.
    pose proof (regenerateLayout_run rnd fuel W H cur app draws) as Hspec.
    rewrite Hrun in Hspec. destruct Hspec as (st & _ & _ & HC & _).
    split; [|split].
    + pose proof (Cuts_nonempty _ _ _ _ _ _ _ HC).
      destruct (baseShapes app'); simpl in *; [lia | done].
    + intros HW. eapply Cuts_uncut_width; eauto.
    + intros HH. eapply Cuts_uncut_height; eauto.
  - intros HW HH.
    pose proof (regenerateLayout_run rnd (S fuel) W H cur app draws) as Hspec.
    destruct (partition_uncut rnd (minShapeSize app) (maxShapeSize app) fuel
                0 0 (inject_Z W) (inject_Z H) (mkRun cur 0 []))
      as [st Hst]; auto.
    destruct (regenerateLayout rnd (S fuel) (Some (W, H)) cur app)
      as [[app' cur']| |]; [| congruence | done].
    destruct Hspec as (st' & _ & _ & HC & _).
    exists app', cur'. split; [done|]. eapply Cuts_uncut; eauto.
Qed.

Lemma degenerate_canvas_still_emits_witness :
  (forall app' cur',
     regenerateLayout draws_mixed 0 (Some (0, 0)%Z) 0 (fresh_app 0 30 150)
       = Returned (app', cur') ->
     baseShapes app' <> [] /\
     ((0 <= 0)%Z -> forall s, s ∈ baseShapes app' -> width s = inject_Z 0) /\
     ((0 <= 0)%Z -> forall s, s ∈ baseShapes app' -> height s = inject_Z 0)) /\
  ((0 <= 0)%Z -> (0 <= 0)%Z ->
   exists app' cur',
     regenerateLayout draws_mixed 1 (Some (0, 0)%Z) 0 (fresh_app 0 30 150)
       = Returned (app', cur') /\
     baseShapes app' = [mkBaseShape 0 0 0 (inject_Z 0) (inject_Z 0)]).
Proof.
  apply (degenerate_canvas_still_emits draws_mixed 0 0 0 0
           (fresh_app 0 30 150)).
  - exact draws_mixed_unit.
  - simpl. lra.
  - left. lia.
Defined.

(** C4 as stated fails.  On a canvas of width 0 and height 0 the run stores
    one shape, the empty rectangle at the origin. *)
Lemma empty_canvas_emits_a_shape :
  shapes_of (regenerateLayout draws_mixed 1 (Some (0, 0)%Z) 0
                              (fresh_app 0 30 150))
  = Some [mkBaseShape 0 0 0 0 0].
Proof. by vm_compute. Qed.

(** C5.  Take two states of the component with the same base
    shapes and the same palette, whatever their blank fractions and their
    shuffled orders.  A shape whose id is blank in neither receives the same
    colour in both, and that colour is
    [effectiveColors[id % effectiveColors.length]]. *)
Theorem palette_slot_is_stable app1 app2 i b :
  baseShapes app1 = baseShapes app2 ->
  colors app1 = colors app2 ->
  baseShapes app1 !! i = Some b ->
  ~ blank app1 (id b) -> ~ blank app2 (id b) ->
  exists s1 s2 c,
    generatedShapes app1 !! i = Some s1 /\
    generatedShapes app2 !! i = Some s2 /\
    base_of s1 = b /\ base_of s2 = b /\
    color s1 = Some c /\ color s2 = Some c /\
    effectiveColors (colors app1)
      !! (id b mod length (effectiveColors (colors app1)))%nat = Some c.
Proof.
  intros Hbase Hcolors Hb Hn1 Hn2.
  destruct (palette_slot_defined (colors app1) (id b)) as [c Hc].
  do 2 eexists. exists c.
  split; [by apply generatedShapes_lookup|].
  split; [apply generatedShapes_lookup; by rewrite <- Hbase|].
  unfold blank in Hn1, Hn2. simpl. unfold shape_color.
  rewrite !decide_False by done. rewrite <- Hcolors. done.
Qed.

Lemma palette_slot_is_stable_witness :
  exists s1 s2 c,
    generatedShapes
      (mkApp ["#111"; "#222"]%string 0 square 30 150
             [mkBaseShape 0 0 0 10 10; mkBaseShape 1 10 0 10 10] [1; 0]%nat)
      !! 1%nat = Some s1 /\
    generatedShapes
      (mkApp ["#111"; "#222"]%string 50 circle 30 150
             [mkBaseShape 0 0 0 10 10; mkBaseShape 1 10 0 10 10] [0; 1]%nat)
      !! 1%nat = Some s2 /\
    base_of s1 = mkBaseShape 1 10 0 10 10 /\
    base_of s2 = mkBaseShape 1 10 0 10 10 /\
    color s1 = Some c /\ color s2 = Some c /\
    effectiveColors ["#111"; "#222"]%string
      !! (1 mod length (effectiveColors ["#111"; "#222"]%string))%nat = Some c.
Proof.
  apply (palette_slot_is_stable
           (mkApp ["#111"; "#222"]%string 0 square 30 150
                  [mkBaseShape 0 0 0 10 10; mkBaseShape 1 10 0 10 10]
                  [1; 0]%nat)
           (mkApp ["#111"; "#222"]%string 50 circle 30 150
                  [mkBaseShape 0 0 0 10 10; mkBaseShape 1 10 0 10 10]
                  [0; 1]%nat)
           1%nat (mkBaseShape 1 10 0 10 10)).
  - reflexivity.
  - reflexivity.
  - reflexivity.
  - unfold blank. eapply (bool_decide_eq_false_1 _). vm_compute. reflexivity.
  - unfold blank. eapply (bool_decide_eq_false_1 _). vm_compute. reflexivity.
Defined.

(** C6, as amended.  For a fixed number of shapes
    and a fixed order, and two blank fractions [0 <= f1 <= f2], the blank
    set of [f1] is included in the blank set of [f2]. *)
Theorem blank_set_grows n (indices : list nat) ws1 ws2 :
  0 <= blankFraction ws1 ->
  blankFraction ws1 <= blankFraction ws2 ->
  whiteIndices n indices ws1 ⊆ whiteIndices n indices ws2.
Proof.
  intros H0 Hle. unfold whiteIndices.
  pose proof (numToMakeWhite_nonneg n ws1 H0) as Hk1.
  pose proof (numToMakeWhite_mono n ws1 ws2 Hle) as Hk.
  rewrite !Array_slice_0_nonneg by lia.
  intros i. rewrite !elem_of_list_to_set.
  apply take_mono_subseteq. lia.
Qed.

Lemma blank_set_grows_witness :
  whiteIndices 10 [3; 1; 4; 0; 5; 9; 2; 6; 8; 7]%nat 20
  ⊆ whiteIndices 10 [3; 1; 4; 0; 5; 9; 2; 6; 8; 7]%nat 50.
Proof.
  apply (blank_set_grows 10 [3; 1; 4; 0; 5; 9; 2; 6; 8; 7]%nat 20 50).
  - by vm_compute.
  - by vm_compute.
Defined.

(** C6 as stated fails.  With ten shapes, the fraction -0.2 blanks the first
    eight ids of the order (the slice counts a negative end from the end of
    the array) and the larger fraction 0 blanks none. *)
Lemma blank_set_shrinks_across_zero :
  blankFraction (-20) <= blankFraction 0 /\
  Array_slice_0 (seq 0 10) (numToMakeWhite 10 (-20)) = seq 0 8 /\
  whiteIndices 10 (seq 0 10) 0 = ∅ /\
  ~ whiteIndices 10 (seq 0 10) (-20) ⊆ whiteIndices 10 (seq 0 10) 0.
Proof.
  assert (Hin : 0%nat ∈ whiteIndices 10 (seq 0 10) (-20)).
  { eapply (bool_decide_unpack _). by vm_compute. }
  assert (Hnone : whiteIndices 10 (seq 0 10) 0 = ∅) by reflexivity.
  split; [by vm_compute|]. split; [reflexivity|]. split; [exact Hnone|].
  intros Hsub. apply Hsub in Hin. rewrite Hnone in Hin. set_solver.
Qed.




(** C8.  After every run of [partition] that returns, [regenerateLayout]
    returns as well.  If [N] shapes were produced, their ids are [0 .. N-1]
    in order, and the stored order is the result of one Fisher-Yates pass
    over these ids: step [i], from [N-1] down to 1, exchanges positions [i]
    and [j], where [j] lies in [[0, i]] and is decided by the draw of that
    step, the [(N-1-i)]-th draw after those of the partition; the draws [r]
    with [j / (i+1) <= r < (j+1) / (i+1)], an interval of the same length
    for every [j], select [j] (up to the rounding slack at the two ends of
    the interval).  The order is a rearrangement of the ids, of length [N]
    and without duplicates. *)
Theorem stable_order_is_a_shuffle rnd fuel (W H : Z) cur app st :
  unit_draws rnd ->
  partition rnd (minShapeSize app) (maxShapeSize app) fuel
            0 0 (inject_Z W) (inject_Z H) (mkRun cur 0 []) = Some st ->
  exists app' cur' choose,
    regenerateLayout rnd fuel (Some (W, H)) cur app = Returned (app', cur') /\
    baseShapes app' = newBaseShapes st /\
    id <$> baseShapes app' = seq 0 (length (baseShapes app')) /\
    shuffledIndices app' = fisher_yates choose (id <$> baseShapes app') /\
    (forall i, (choose i <= i)%nat) /\
    (forall i j : nat,
       (1 <= i < length (baseShapes app'))%nat ->
       inject_Z (Z.of_nat j) + inject_Z (Z.of_nat (i + 1)) * rounding_slack
         <= rnd (cursor st + (length (baseShapes app') - 1 - i))%nat
            * inject_Z (Z.of_nat (i + 1)) ->
       rnd (cursor st + (length (baseShapes app') - 1 - i))%nat
         * inject_Z (Z.of_nat (i + 1))
         <= inject_Z (Z.of_nat (j + 1))
            - inject_Z (Z.of_nat (i + 1)) * rounding_slack ->
       choose i = j) /\
    shuffledIndices app' ≡ₚ id <$> baseShapes app' /\
    length (shuffledIndices app') = length (baseShapes app') /\
    NoDup (shuffledIndices app').
Proof.
  intros draws Hrun.
  pose proof (regenerateLayout_run rnd fuel W H cur app draws) as Hspec.
  destruct (regenerateLayout rnd fuel (Some (W, H)) cur app)
    as [[app' cur']| |]; [| congruence | done].
  destruct Hspec as (st' & Hst' & Hshapes & HC & Hfy & Hperm & _).
  assert (st' = st) as -> by congruence.
  pose proof (Cuts_ids _ _ _ _ _ _ _ HC) as Hids.
  exists app', cur', (drawn rnd (cursor st) (length (baseShapes app') - 1)).
  split; [done|]. split; [done|]. split; [exact Hids|].
  split; [exact Hfy|]. split; [intros i; by apply drawn_range|].
  split; [|split; [exact Hperm|split]].
  - intros i j Hi Hlo Hhi. unfold drawn, pick, Math_floor.
    set (x := rnd _ * _) in *.
    assert (Hslack : 0 < inject_Z (Z.of_nat (i + 1)) * rounding_slack).
    { apply Qmult_lt_0_compat; [|by vm_compute].
      change 0 with (inject_Z 0). rewrite <- Zlt_Qlt. lia. }
    assert (Hj : (Z.of_nat j <= Qfloor x)%Z) by (apply floor_above; lra).
    assert (Hj' : (Qfloor x < Z.of_nat (j + 1))%Z) by (apply floor_below; lra).
    lia.
  - apply Permutation_length in Hperm. by rewrite Hperm, length_fmap.
  - rewrite Hperm, Hids. apply NoDup_seq.
Qed.

Lemma stable_order_is_a_shuffle_witness :
  exists app' cur' choose,
    regenerateLayout draws_mixed 50 (Some (200, 100)%Z) 0 (fresh_app 0 30 150)
      = Returned (app', cur') /\
    baseShapes app' = newBaseShapes cut_run /\
    id <$> baseShapes app' = seq 0 (length (baseShapes app')) /\
    shuffledIndices app' = fisher_yates choose (id <$> baseShapes app') /\
    (forall i, (choose i <= i)%nat) /\
    (forall i j : nat,
       (1 <= i < length (baseShapes app'))%nat ->
       inject_Z (Z.of_nat j) + inject_Z (Z.of_nat (i + 1)) * rounding_slack
         <= draws_mixed (cursor cut_run + (length (baseShapes app') - 1 - i))%nat
            * inject_Z (Z.of_nat (i + 1)) ->
       draws_mixed (cursor cut_run + (length (baseShapes app') - 1 - i))%nat
         * inject_Z (Z.of_nat (i + 1))
         <= inject_Z (Z.of_nat (j + 1))
            - inject_Z (Z.of_nat (i + 1)) * rounding_slack ->
       choose i = j) /\
    shuffledIndices app' ≡ₚ id <$> baseShapes app' /\
    length (shuffledIndices app') = length (baseShapes app') /\
    NoDup (shuffledIndices app').
Proof.
  apply (stable_order_is_a_shuffle draws_mixed 50 200 100 0
           (fresh_app 0 30 150) cut_run).
  - exact draws_mixed_unit.
  - vm_compute. reflexivity.
Defined.

(** C9, as amended.  With an empty palette the
    derivation uses the single fallback colour [#cccccc] and styles every
    shape without failing: a shape whose id is not blank receives the
    fallback colour, a shape whose id is blank still receives the blank
    marker [#ffffff]; with a blank fraction of 0 every shape receives the
    fallback colour. *)
Theorem empty_palette_falls_back app :
  colors app = [] ->
  effectiveColors (colors app) = ["#cccccc"%string] /\
  length (generatedShapes app) = length (baseShapes app) /\
  (forall i b, baseShapes app !! i = Some b ->
     exists s, generatedShapes app !! i = Some s /\ base_of s = b /\
       color s = Some (if decide (blank app (id b))
                       then "#ffffff"%string else "#cccccc"%string)) /\
  (blankFraction (whiteSpace app) == 0 ->
   forall s, s ∈ generatedShapes app -> color s = Some "#cccccc"%string).
Proof.
  intros Hpal.
  assert (Hlook : forall i b, baseShapes app !! i = Some b ->
     exists s, generatedShapes app !! i = Some s /\ base_of s = b /\
       color s = Some (if decide (blank app (id b))
                       then "#ffffff"%string else "#cccccc"%string)).
  { intros i b Hb. eexists. split; [by apply generatedShapes_lookup|].
    split; [done|]. simpl. unfold shape_color, blank. rewrite Hpal.
    repeat case_decide; done. }
  split; [by rewrite Hpal|]. split; [apply generatedShapes_length|].
  split; [exact Hlook|].
  intros Hzero s Hs. apply list_elem_of_lookup in Hs as [i Hi].
  assert (Hlt : (i < length (baseShapes app))%nat).
  { rewrite <- generatedShapes_length. by eapply lookup_lt_Some. }
  destruct (lookup_lt_is_Some_2 _ _ Hlt) as [b Hb].
  destruct (Hlook i b Hb) as (s' & Hs' & _ & Hcol).
  rewrite Hi in Hs'. injection Hs' as <-. rewrite Hcol.
  rewrite decide_False; [done|]. unfold blank, whiteIndices.
  assert (Hk : numToMakeWhite (length (baseShapes app)) (whiteSpace app) = 0%Z).
  { unfold numToMakeWhite, Math_floor.
    rewrite <- (Qfloor_Z 0). apply Qfloor_comp.
    change (whiteSpace app / 100) with (blankFraction (whiteSpace app)).
    rewrite Hzero. change (inject_Z 0) with 0. ring. }
  rewrite Hk, Array_slice_0_nonneg by lia.
  replace (Z.to_nat (0 `min` Z.of_nat (length (shuffledIndices app))))
    with 0%nat by lia.
  rewrite take_0. apply not_elem_of_empty.
Qed.

Lemma empty_palette_falls_back_witness :
  effectiveColors [] = ["#cccccc"%string] /\
  length (generatedShapes
            (mkApp [] 0 square 30 150 (baseShapes laid_out)
                   (shuffledIndices laid_out)))
  = length (baseShapes laid_out) /\
  (forall i b, baseShapes laid_out !! i = Some b ->
     exists s,
       generatedShapes
         (mkApp [] 0 square 30 150 (baseShapes laid_out)
                (shuffledIndices laid_out)) !! i = Some s /\
       base_of s = b /\
       color s = Some (if decide (blank
                                    (mkApp [] 0 square 30 150
                                           (baseShapes laid_out)
                                           (shuffledIndices laid_out))
                                    (id b))
                       then "#ffffff"%string else "#cccccc"%string)) /\
  (blankFraction 0 == 0 ->
   forall s,
     s ∈ generatedShapes
           (mkApp [] 0 square 30 150 (baseShapes laid_out)
                  (shuffledIndices laid_out)) ->
     color s = Some "#cccccc"%string).
Proof.
  apply (empty_palette_falls_back
           (mkApp [] 0 square 30 150 (baseShapes laid_out)
                  (shuffledIndices laid_out))).
  reflexivity.
Defined.

(** C9 as stated fails.  With an empty palette and a blank fraction of 1,
    the only shape receives the blank marker, not the fallback colour. *)
Lemma empty_palette_still_blanks :
  color <$> generatedShapes
              (mkApp [] 100 square 30 150 [mkBaseShape 0 0 0 10 10] [0%nat])
  = [Some "#ffffff"%string] /\
  "#ffffff"%string <> "#cccccc"%string.
Proof. split; [by vm_compute | done]. Qed.

(** C10.  If the canvas width, the canvas height and [minSize]
    are integers, every leaf that a run of [partition] from the canvas
    rectangle leaves in [newBaseShapes] has integer [x], [y], [width] and
    [height]. *)
Theorem leaves_are_integral rnd minSize maxSize fuel w h cur st' :
  unit_draws rnd ->
  is_int w -> is_int h -> is_int minSize ->
  partition rnd minSize maxSize fuel 0 0 w h (mkRun cur 0 []) = Some st' ->
  forall s, s ∈ newBaseShapes st' ->
    is_int (x s) /\ is_int (y s) /\ is_int (width s) /\ is_int (height s).
Proof.
  intros draws Hw Hh _ Hrun.
  destruct (partition_Cuts _ _ _ draws _ _ _ _ _ _ _ Hrun)
    as (l & HC & Hl & _ & _).
  simpl in Hl. rewrite Hl.
  eapply Cuts_integral; eauto; by exists 0%Z.
Qed.

Lemma leaves_are_integral_witness :
  Forall (fun s => is_int (x s) /\ is_int (y s) /\
                   is_int (width s) /\ is_int (height s))
         (newBaseShapes cut_run).
Proof.
  apply Forall_forall.
  apply (leaves_are_integral draws_mixed 30 150 50 200 100 0%nat cut_run).
  - exact draws_mixed_unit.
  - by exists 200%Z.
  - by exists 100%Z.
  - by exists 30%Z.
  - vm_compute. reflexivity.
Defined.

(** * Further properties of the component *)

(** ** The layout *)

(** The shapes a returned layout stores are those the partition pushed. *)
Lemma regenerateLayout_shapes rnd fuel W H cur app app' cur' :
  regenerateLayout rnd fuel (Some (W, H)) cur app = Returned (app', cur') ->
  exists st,
    partition rnd (minShapeSize app) (maxShapeSize app) fuel
              0 0 (inject_Z W) (inject_Z H) (mkRun cur 0 []) = Some st /\
    baseShapes app' = newBaseShapes st /\
    colors app' = colors app /\ whiteSpace app' = whiteSpace app /\
    shapeType app' = shapeType app.
Proof.
  unfold regenerateLayout.
  destruct (partition _ _ _ _ _ _ _ _ _) as [st|]; [|discriminate].
  destruct (shuffle_loop _ _ _ _) as [[indices' c]|]; [|discriminate].
  destruct (ids_at _ _); [|discriminate].
  intros [= <- <-]. by exists st.
Qed.

Lemma shouldStop_true rnd maxSize w h st st1 :
  shouldStop rnd maxSize w h st = (true, st1) -> w <= maxSize /\ h <= maxSize.
Proof.
  unfold shouldStop.
  destruct (num_le w maxSize && num_le h maxSize) eqn:E; [|discriminate].
  intros _. apply andb_true_iff in E as [E1 E2].
  by rewrite <- !num_le_true.
Qed.

(** Every pushed leaf obeys the stop rule of the call that pushed it. *)
Lemma partition_leaf_policy rnd minSize maxSize fuel :
  forall px py w h st st',
    partition rnd minSize maxSize fuel px py w h st = Some st' ->
    exists l, newBaseShapes st' = newBaseShapes st ++ l /\
              forall s, s ∈ l -> leaf_policy minSize maxSize s.
Proof.
  induction fuel as [|fuel IH]; intros px py w h st st' Hrun; [discriminate|].
  rewrite partition_S in Hrun. cbv zeta in Hrun.
  destruct (shouldStop rnd maxSize w h st) as [stop st1] eqn:Hstop.
  destruct (shouldStop_frame _ _ _ _ _ _ _ Hstop) as (_ & Hshapes & _).
  destruct (stop || _) eqn:Hleaf.
  - injection Hrun as <-. eexists. simpl. rewrite Hshapes.
    split; [reflexivity|]. intros s ->%list_elem_of_singleton.
    unfold leaf_policy. simpl. apply orb_true_iff in Hleaf as [->|Hcut].
    + left. by eapply shouldStop_true.
    + right. apply andb_true_iff in Hcut as [Hh Hw].
      apply negb_true_iff in Hh, Hw. by rewrite <- !num_ge_false.
  - destruct (_ || negb _); unfold splitAt, Math_random in Hrun;
      match type of Hrun with
      | match ?call with _ => _ end = _ =>
          destruct call as [st3|] eqn:Hfirst; [|discriminate]
      end;
      apply IH in Hfirst as (l1 & Hs1 & Hp1);
      apply IH in Hrun as (l2 & Hs2 & Hp2);
      exists (l1 ++ l2); simpl in *;
      (split; [by rewrite Hs2, Hs1, Hshapes, app_assoc|]);
      intros s [?|?]%elem_of_app; auto.
Qed.

(** X1.  Every shape that a returned layout stores passed the size test of
    the stop rule (width and height at most [maxSize]) or could be cut on
    neither axis (width and height below twice [minSize]).  So when
    [maxSize] is at least twice [minSize], no stored shape is wider or
    higher than [maxSize]. *)
Theorem stored_shapes_obey_stop_rule rnd fuel (W H : Z) cur app app' cur' :
  regenerateLayout rnd fuel (Some (W, H)) cur app = Returned (app', cur') ->
  (forall s, s ∈ baseShapes app' ->
             leaf_policy (minShapeSize app) (maxShapeSize app) s) /\
  (minShapeSize app * 2 <= maxShapeSize app ->
   forall s, s ∈ baseShapes app' ->
             width s <= maxShapeSize app /\ height s <= maxShapeSize app).
Proof.
  intros Hrun.
  destruct (regenerateLayout_shapes _ _ _ _ _ _ _ _ Hrun)
    as (st & Hpart & -> & _).
  destruct (partition_leaf_policy _ _ _ _ _ _ _ _ _ _ Hpart)
    as (l & Hl & Hpol).
  simpl in Hl. rewrite Hl. split; [exact Hpol|].
  intros Hmax s Hs. destruct (Hpol s Hs) as [Hin|[Hw Hh]]; [exact Hin|].
  split; lra.
Qed.

Lemma stored_shapes_obey_stop_rule_witness :
  (forall s, s ∈ baseShapes laid_out -> leaf_policy 30 150 s) /\
  (30 * 2 <= 150 ->
   forall s, s ∈ baseShapes laid_out -> width s <= 150 /\ height s <= 150).
Proof.
  apply (stored_shapes_obey_stop_rule draws_mixed 50 200 100 0
           (fresh_app 0 30 150) laid_out 27%nat).
  exact laid_out_run.
Defined.

Lemma total_area_at_least (m : Q) (l : list BaseShape) :
  0 <= m ->
  (forall s, s ∈ l -> m <= width s /\ m <= height s) ->
  inject_Z (Z.of_nat (length l)) * (m * m) <= total_area l.
Proof.
  intros Hm. induction l as [|s l IH]; intros Hall.
  - change (0 * (m * m) <= 0). rewrite Qmult_0_l. apply Qle_refl.
  - destruct (Hall s) as [Hw Hh]; [by left|].
    assert (Hrest : inject_Z (Z.of_nat (length l)) * (m * m) <= total_area l).
    { apply IH. intros t Ht. apply Hall. by right. }
    assert (Harea : m * m <= area s).
    { unfold area. apply Qle_trans with (width s * m).
      - apply Qmult_le_compat_r; assumption.
      - rewrite !(Qmult_comm (width s)). apply Qmult_le_compat_r; lra. }
    change (total_area (s :: l)) with (area s + total_area l).
    change (length (s :: l)) with (S (length l)).
    rewrite Nat2Z.inj_succ. unfold Z.succ. rewrite inject_Z_plus.
    change (inject_Z 1) with 1. lra.
Qed.

(** X2.  With an integer [minSize] of at least 1 on a canvas at least
    [minSize] wide and high, every stored shape takes up at least
    [minSize * minSize] of the canvas: a layout of [N] shapes satisfies
    [N * minSize * minSize <= W * H]. *)
Theorem shape_count_bounded_by_area rnd fuel (W H : Z) cur app app' cur' :
  unit_draws rnd ->
  is_int (minShapeSize app) -> 1 <= minShapeSize app ->
  minShapeSize app <= inject_Z W -> minShapeSize app <= inject_Z H ->
  regenerateLayout rnd fuel (Some (W, H)) cur app = Returned (app', cur') ->
  inject_Z (Z.of_nat (length (baseShapes app')))
    * (minShapeSize app * minShapeSize app)
  <= inject_Z W * inject_Z H.
Proof.
  intros draws Hint Hm HW HH Hrun.
  pose proof (regenerateLayout_run rnd fuel W H cur app draws) as Hspec.
  rewrite Hrun in Hspec. destruct Hspec as (st & _ & _ & HC & _).
  assert (HT : Tiling 0 0 (inject_Z W) (inject_Z H) (baseShapes app')).
  { eapply Cuts_Tiling; eauto using is_int_inject; lra. }
  rewrite <- (Tiling_area _ _ _ _ _ HT).
  apply total_area_at_least; [lra|].
  intros s Hs.
  destruct (Cuts_min_size _ _ _ _ _ _ _ Hint HC (is_int_inject W)
              (is_int_inject H) s Hs) as [Hw Hh].
  auto.
Qed.

Lemma shape_count_bounded_by_area_witness :
  inject_Z (Z.of_nat (length (baseShapes laid_out))) * (30 * 30)
  <= inject_Z 200 * inject_Z 100.
Proof.
  apply (shape_count_bounded_by_area draws_mixed 50 200 100 0
           (fresh_app 0 30 150) laid_out 27%nat).
  - exact draws_mixed_unit.
  - by exists 30%Z.
  - by vm_compute.
  - by vm_compute.
  - by vm_compute.
  - exact laid_out_run.
Defined.

(** X3.  A canvas shorter than twice [minSize] on both axes is never cut,
    whatever the draws: the layout stores the canvas rectangle itself as its
    only shape, with id 0, and the stored order is [[0]]. *)
Theorem small_canvas_is_one_shape rnd fuel (W H : Z) cur app :
  inject_Z W < minShapeSize app * 2 ->
  inject_Z H < minShapeSize app * 2 ->
  exists app' cur',
    regenerateLayout rnd (S fuel) (Some (W, H)) cur app
      = Returned (app', cur') /\
    baseShapes app' = [mkBaseShape 0 0 0 (inject_Z W) (inject_Z H)] /\
    shuffledIndices app' = [0%nat].
Proof.
  intros HW HH. unfold regenerateLayout. rewrite partition_S. cbv zeta.
  destruct (shouldStop rnd (maxShapeSize app) (inject_Z W) (inject_Z H)
              (mkRun cur 0 [])) as [stop st1] eqn:Hstop.
  destruct (shouldStop_frame _ _ _ _ _ _ _ Hstop) as (Hid & Hshapes & _).
  apply num_ge_false in HW, HH. rewrite HW, HH. simpl negb. simpl andb.
  rewrite orb_true_r. unfold push_leaf. simpl newBaseShapes.
  rewrite Hid, Hshapes. simpl. by eauto.
Qed.

Lemma small_canvas_is_one_shape_witness :
  exists app' cur',
    regenerateLayout draws_low 1 (Some (50, 40)%Z) 0 initial_app
      = Returned (app', cur') /\
    baseShapes app' = [mkBaseShape 0 0 0 (inject_Z 50) (inject_Z 40)] /\
    shuffledIndices app' = [0%nat].
Proof.
  apply (small_canvas_is_one_shape draws_low 0 50 40 0 initial_app).
  - by vm_compute.
  - by vm_compute.
Defined.

(** With [minSize = 0] every rectangle of non-negative extent can be cut,
    so a call whose stop test fails recurses. *)
Lemma zero_minSize_recurses rnd minSize maxSize fuel :
  (forall n, 0 <= rnd n /\ rnd n <= 1 # 10) ->
  minSize == 0 ->
  forall px py w h st,
    0 <= w -> 0 <= h ->
    partition rnd minSize maxSize fuel px py w h st = None.
Proof.
  intros Hlow Hm. induction fuel as [|fuel IH]; intros px py w h st Hw Hh;
    [reflexivity|].
  rewrite partition_S. cbv zeta.
  assert (HcanH : num_ge h (minSize * 2) = true) by (apply num_ge_true; lra).
  assert (HcanV : num_ge w (minSize * 2) = true) by (apply num_ge_true; lra).
  rewrite HcanH, HcanV. simpl negb. simpl andb. rewrite orb_false_r.
  assert (Hstop : exists st1, shouldStop rnd maxSize w h st = (false, st1)).
  { unfold shouldStop, Math_random.
    destruct (num_le w maxSize && num_le h maxSize); [|by eexists].
    eexists. f_equal. unfold num_gt. apply negb_false_iff, Qle_bool_iff.
    apply Hlow. }
  destruct Hstop as [st1 ->]. rewrite andb_true_r.
  assert (Hcut : forall e, 0 <= e ->
            0 <= inject_Z (Math_round (minSize + rnd (cursor st1)
                                                 * (e - minSize * 2)))).
  { intros e He. change 0 with (inject_Z 0) at 1. rewrite <- Zle_Qle.
    apply floor_above. change (inject_Z 0) with 0.
    assert (0 <= rnd (cursor st1) * (e - minSize * 2))
      by (apply Qmult_le_0_compat; [apply Hlow | lra]).
    lra. }
  destruct (num_gt w h); unfold splitAt, Math_random; simpl.
  - by rewrite IH by auto.
  - by rewrite IH by auto.
Qed.

(** X4.  With [minSize = 0] nothing but the stop test ends the recursion:
    on a canvas of non-negative extents, a run whose draws never exceed 0.1
    does not return, whatever the fuel. *)
Theorem zero_minSize_never_returns rnd fuel (W H : Z) cur app :
  (forall n, 0 <= rnd n /\ rnd n <= 1 # 10) ->
  minShapeSize app == 0 ->
  (0 <= W)%Z -> (0 <= H)%Z ->
  regenerateLayout rnd fuel (Some (W, H)) cur app = OutOfFuel.
Proof.
  intros Hlow Hmin HW HH. unfold regenerateLayout.
  rewrite zero_minSize_recurses; [done | exact Hlow | exact Hmin | |];
    change 0 with (inject_Z 0); by rewrite <- Zle_Qle.
Qed.

Lemma draws_low_stay_low : forall n, 0 <= draws_low n /\ draws_low n <= 1 # 10.
Proof. intros n. unfold draws_low. split; lra. Defined.

Lemma zero_minSize_never_returns_witness :
  regenerateLayout draws_low 1000 (Some (200, 100)%Z) 0
                   (set_minShapeSize 0 initial_app) = OutOfFuel.
Proof.
  apply (zero_minSize_never_returns draws_low 1000 200 100 0
           (set_minShapeSize 0 initial_app)).
  - exact draws_low_stay_low.
  - reflexivity.
  - lia.
  - lia.
Defined.

(** ** The styling *)

(** X5.  Styling never touches the geometry: the styled list holds the base
    shapes themselves, in their order, each with the current shape type. *)
Theorem styling_keeps_geometry app :
  base_of <$> generatedShapes app = baseShapes app /\
  Forall (fun s => type s = shapeType app) (generatedShapes app).
Proof.
  unfold generatedShapes.
  destruct (length (baseShapes app) =? 0)%nat eqn:E.
  - apply Nat.eqb_eq in E. destruct (baseShapes app); [by split|discriminate].
  - split.
    + rewrite <- list_fmap_compose. apply list_fmap_id.
    + apply Forall_fmap, Forall_forall. by intros.
Qed.

(** On a palette without holes the two readings of the source agree. *)
Lemma generatedShapes_sparse_dense app :
  generatedShapes_sparse (Some <$> colors app) app = generatedShapes app.
Proof.
  unfold generatedShapes_sparse, generatedShapes.
  destruct (length (baseShapes app) =? 0)%nat; [done|].
  apply list_fmap_ext. intros _ b _. f_equal.
  unfold shape_color_sparse, shape_color, effectiveColors_sparse,
    effectiveColors. rewrite length_fmap.
  case_decide; [done|].
  destruct (0 <? length (colors app))%nat.
  - rewrite list_lookup_fmap, length_fmap.
    by destruct (colors app !! (id b mod length (colors app))%nat).
  - change (length [Some "#cccccc"%string]) with 1%nat.
    change (length ["#cccccc"%string]) with 1%nat.
    by rewrite Nat.mod_1_r.
Qed.

(** An edit inside the palette, or just past its end, leaves no hole; the
    model of [updateColor] on palettes without holes is that case. *)
Lemma updateColor_sparse_dense k c app app' :
  updateColor k c app = Some app' ->
  updateColor_sparse k c (Some <$> colors app) = Some <$> colors app'.
Proof.
  unfold updateColor, updateColor_sparse. rewrite length_fmap.
  destruct (k <? length (colors app))%nat eqn:E1.
  - intros [= <-]. simpl. by rewrite list_fmap_insert.
  - destruct (k =? length (colors app))%nat eqn:E2; [|discriminate].
    intros [= <-]. apply Nat.eqb_eq in E2. subst k.
    rewrite Nat.sub_diag. simpl. by rewrite fmap_app.
Qed.

(** X6.  On a palette without holes every styled shape has a colour: the
    blank marker [#ffffff], or an element of the palette in use, which is
    [#cccccc] alone when the palette is empty.  On a palette with holes, as
    [updateColor] leaves it at an index beyond the end, a shape that is not
    blank and whose palette slot is a hole has no colour ([undefined]). *)
Theorem styled_colour_is_defined cs app i b :
  baseShapes app !! i = Some b ->
  exists s,
    generatedShapes_sparse cs app !! i = Some s /\ base_of s = b /\
    (Forall is_Some cs ->
     exists c, color s = Some c /\
               (c = "#ffffff"%string \/ Some c ∈ effectiveColors_sparse cs)) /\
    (~ blank app (id b) ->
     cs !! (id b mod length cs)%nat = Some None ->
     color s = None).
Proof.
  intros Hb. unfold generatedShapes_sparse.
  destruct (length (baseShapes app) =? 0)%nat eqn:E.
  { apply Nat.eqb_eq in E. apply lookup_lt_Some in Hb. lia. }
  rewrite list_lookup_fmap, Hb. simpl. eexists. split; [reflexivity|].
  split; [done|]. simpl. unfold shape_color_sparse. split.
  - intros Hdense. case_decide; [by eauto|].
    assert (Heff : Forall is_Some (effectiveColors_sparse cs)).
    { unfold effectiveColors_sparse.
      destruct (0 <? length cs)%nat; [done|]. by repeat constructor. }
    assert (Hpos : (0 < length (effectiveColors_sparse cs))%nat).
    { unfold effectiveColors_sparse.
      destruct (0 <? length cs)%nat eqn:E'; [by apply Nat.ltb_lt|simpl; lia]. }
    destruct (lookup_lt_is_Some_2 (effectiveColors_sparse cs)
                (id b mod length (effectiveColors_sparse cs))%nat)
      as [slot Hslot]; [apply Nat.mod_upper_bound; lia|].
    rewrite Hslot. simpl.
    destruct (proj1 (Forall_lookup _ _) Heff _ _ Hslot) as [c ->].
    exists c. split; [done|]. right. by eapply list_elem_of_lookup_2.
  - intros Hnot Hhole. unfold blank in Hnot. rewrite decide_False by done.
    assert (Hlen : (0 < length cs)%nat).
    { apply lookup_lt_Some in Hhole. lia. }
    unfold effectiveColors_sparse. apply Nat.ltb_lt in Hlen. rewrite Hlen.
    by rewrite Hhole.
Qed.

Lemma styled_colour_is_defined_witness :
  exists s,
    generatedShapes_sparse
      (updateColor_sparse 4 "#abc" [Some "#111"; Some "#222"]%string)
      laid_out !! 3%nat = Some s /\
    base_of s = mkBaseShape 3 115 0 35 58 /\
    (Forall is_Some
            (updateColor_sparse 4 "#abc" [Some "#111"; Some "#222"]%string) ->
     exists c, color s = Some c /\
               (c = "#ffffff"%string \/
                Some c ∈ effectiveColors_sparse
                           (updateColor_sparse 4 "#abc"
                              [Some "#111"; Some "#222"]%string))) /\
    (~ blank laid_out (id (mkBaseShape 3 115 0 35 58)) ->
     updateColor_sparse 4 "#abc" [Some "#111"; Some "#222"]%string
       !! (id (mkBaseShape 3 115 0 35 58)
           mod length (updateColor_sparse 4 "#abc"
                         [Some "#111"; Some "#222"]%string))%nat
     = Some None ->
     color s = None).
Proof.
  apply (styled_colour_is_defined
           (updateColor_sparse 4 "#abc" [Some "#111"; Some "#222"]%string)
           laid_out 3%nat (mkBaseShape 3 115 0 35 58)).
  reflexivity.
Defined.

(** A percentage that is not negative blanks a prefix of the order. *)
Lemma whiteIndices_prefix n (indices : list nat) ws :
  0 <= blankFraction ws ->
  whiteIndices n indices ws
  = list_to_set
      (take (Z.to_nat (Z.min (numToMakeWhite n ws)
                             (Z.of_nat (length indices)))) indices).
Proof.
  intros Hf. unfold whiteIndices.
  by rewrite Array_slice_0_nonneg by by apply numToMakeWhite_nonneg.
Qed.

Lemma whiteIndices_mono n (indices : list nat) ws1 ws2 :
  0 <= blankFraction ws1 -> blankFraction ws1 <= blankFraction ws2 ->
  whiteIndices n indices ws1 ⊆ whiteIndices n indices ws2.
Proof.
  intros H0 Hle.
  pose proof (numToMakeWhite_nonneg n ws1 H0) as Hk1.
  pose proof (numToMakeWhite_mono n ws1 ws2 Hle) as Hk.
  rewrite !whiteIndices_prefix by lra.
  intros i. rewrite !elem_of_list_to_set. apply take_mono_subseteq. lia.
Qed.

Lemma blankFraction_inject (v : Z) :
  (0 <= v)%Z -> 0 <= blankFraction (inject_Z v).
Proof.
  intros Hv. unfold blankFraction. apply Qle_shift_div_l; [reflexivity|].
  rewrite Qmult_0_l. change 0 with (inject_Z 0). by rewrite <- Zle_Qle.
Qed.

Lemma blankFraction_mono (v1 v2 : Z) :
  (v1 <= v2)%Z -> blankFraction (inject_Z v1) <= blankFraction (inject_Z v2).
Proof.
  intros Hv. unfold blankFraction, Qdiv. apply Qmult_le_compat_r.
  - by rewrite <- Zle_Qle.
  - by vm_compute.
Qed.

(** X7.  Raising the white-space percentage never takes white away: for
    percentages [0 <= v1 <= v2], a shape that is white at [v1] is white at
    [v2]. *)
Theorem white_stays_white app (v1 v2 : Z) i s1 s2 :
  (0 <= v1)%Z -> (v1 <= v2)%Z ->
  generatedShapes (updateWhiteSpace v1 app) !! i = Some s1 ->
  generatedShapes (updateWhiteSpace v2 app) !! i = Some s2 ->
  color s1 = Some "#ffffff"%string ->
  color s2 = Some "#ffffff"%string.
Proof.
  intros H0 Hle H1 H2 Hwhite.
  assert (Hlt : (i < length (baseShapes app))%nat).
  { apply lookup_lt_Some in H1. by rewrite generatedShapes_length in H1. }
  destruct (lookup_lt_is_Some_2 _ _ Hlt) as [b Hb].
  rewrite (generatedShapes_lookup (updateWhiteSpace v1 app) i b Hb) in H1.
  rewrite (generatedShapes_lookup (updateWhiteSpace v2 app) i b Hb) in H2.
  injection H1 as <-. injection H2 as <-. simpl in *.
  unfold shape_color in *.
  pose proof (whiteIndices_mono (length (baseShapes app))
                (shuffledIndices app) (inject_Z v1) (inject_Z v2)
                (blankFraction_inject v1 H0) (blankFraction_mono v1 v2 Hle))
    as Hsub.
  repeat case_decide; try done. exfalso. auto.
Qed.

Lemma white_stays_white_witness :
  color (mkShape (mkBaseShape 1 37 0 35 100) (Some "#ffffff"%string) square)
  = Some "#ffffff"%string.
Proof.
  apply (white_stays_white laid_out 20 60 1%nat
           (mkShape (mkBaseShape 1 37 0 35 100) (Some "#ffffff"%string) square)
           (mkShape (mkBaseShape 1 37 0 35 100) (Some "#ffffff"%string) square)).
  - lia.
  - lia.
  - vm_compute. reflexivity.
  - vm_compute. reflexivity.
  - reflexivity.
Defined.





(** In a returned layout the id of a shape is its position. *)
Lemma layout_id_is_position rnd fuel W H cur app app' cur' i b :
  unit_draws rnd ->
  regenerateLayout rnd fuel (Some (W, H)) cur app = Returned (app', cur') ->
  baseShapes app' !! i = Some b -> id b = i.
Proof.
  intros draws Hrun Hb.
  pose proof (regenerateLayout_run rnd fuel W H cur app draws) as Hspec.
  rewrite Hrun in Hspec. destruct Hspec as (st & _ & _ & HC & _).
  pose proof (Cuts_ids _ _ _ _ _ _ _ HC) as Hids.
  assert (Hl : (id <$> baseShapes app') !! i = Some (id b))
    by (by rewrite list_lookup_fmap, Hb).
  rewrite Hids in Hl. apply lookup_seq in Hl as [-> _]. done.
Qed.

(** X9.  After a layout, a white-space percentage of 100 or more makes
    every styled shape white. *)
Theorem full_white_space_blanks_all rnd fuel (W H : Z) cur app app' cur'
    (v : Z) s :
  unit_draws rnd ->
  regenerateLayout rnd fuel (Some (W, H)) cur app = Returned (app', cur') ->
  (100 <= v)%Z ->
  s ∈ generatedShapes (updateWhiteSpace v app') ->
  color s = Some "#ffffff"%string.
Proof.
  intros draws Hrun Hv [i Hi]%list_elem_of_lookup.
  pose proof (regenerateLayout_run rnd fuel W H cur app draws) as Hspec.
  rewrite Hrun in Hspec. destruct Hspec as (st & _ & _ & HC & _ & Hperm & _).
  assert (Hlt : (i < length (baseShapes app'))%nat).
  { apply lookup_lt_Some in Hi. by rewrite generatedShapes_length in Hi. }
  destruct (lookup_lt_is_Some_2 _ _ Hlt) as [b Hb].
  rewrite (generatedShapes_lookup (updateWhiteSpace v app') i b Hb) in Hi.
  injection Hi as <-. simpl. unfold shape_color.
  rewrite decide_True; [done|].
  rewrite whiteIndices_prefix by (apply blankFraction_inject; lia).
  assert (Hlen : length (shuffledIndices app') = length (baseShapes app')).
  { apply Permutation_length in Hperm. by rewrite Hperm, length_fmap. }
  assert (Hn : (Z.of_nat (length (baseShapes app'))
                <= numToMakeWhite (length (baseShapes app')) (inject_Z v))%Z).
  { unfold numToMakeWhite. apply floor_above.
    rewrite <- (Qmult_1_r (inject_Z (Z.of_nat (length (baseShapes app'))))) at 1.
    rewrite !(Qmult_comm (inject_Z (Z.of_nat (length (baseShapes app'))))).
    apply Qmult_le_compat_r.
    - apply Qle_shift_div_l; [reflexivity|]. rewrite Qmult_1_l.
      change 100 with (inject_Z 100). by rewrite <- Zle_Qle.
    - change 0 with (inject_Z 0). rewrite <- Zle_Qle. lia. }
  rewrite take_ge by lia. rewrite elem_of_list_to_set, Hperm.
  apply list_elem_of_fmap. exists b. split; [done|].
  by eapply list_elem_of_lookup_2.
Qed.

Lemma full_white_space_blanks_all_witness :
  Forall (fun s => color s = Some "#ffffff"%string)
         (generatedShapes (updateWhiteSpace 100 laid_out)).
Proof.
  apply Forall_forall. intros s.
  apply (full_white_space_blanks_all draws_mixed 50 200 100 0
           (fresh_app 0 30 150) laid_out 27%nat 100 s).
  - exact draws_mixed_unit.
  - exact laid_out_run.
  - lia.
Defined.

(** X10.  After a layout, with a white-space percentage of 0 the colours
    run through the palette in the order of the shapes: the shape at
    position [i] has id [i] and the colour
    [effectiveColors[i % effectiveColors.length]]. *)
Theorem colours_cycle_through_palette rnd fuel (W H : Z) cur app app' cur'
    i s :
  unit_draws rnd ->
  regenerateLayout rnd fuel (Some (W, H)) cur app = Returned (app', cur') ->
  generatedShapes (updateWhiteSpace 0 app') !! i = Some s ->
  id (base_of s) = i /\
  color s = effectiveColors (colors app)
              !! (i mod length (effectiveColors (colors app)))%nat.
Proof.
  intros draws Hrun Hi.
  destruct (regenerateLayout_shapes _ _ _ _ _ _ _ _ Hrun)
    as (_ & _ & _ & Hcolors & _).
  assert (Hlt : (i < length (baseShapes app'))%nat).
  { apply lookup_lt_Some in Hi. by rewrite generatedShapes_length in Hi. }
  destruct (lookup_lt_is_Some_2 _ _ Hlt) as [b Hb].
  rewrite (generatedShapes_lookup (updateWhiteSpace 0 app') i b Hb) in Hi.
  injection Hi as <-. simpl.
  rewrite (layout_id_is_position _ _ _ _ _ _ _ _ _ _ draws Hrun Hb).
  split; [done|]. unfold shape_color. rewrite Hcolors.
  rewrite decide_False; [done|].
  rewrite whiteIndices_prefix by by vm_compute.
  assert (Hk : numToMakeWhite (length (baseShapes app')) (inject_Z 0) = 0%Z).
  { unfold numToMakeWhite, Math_floor. rewrite <- (Qfloor_Z 0).
    apply Qfloor_comp. unfold Qeq. simpl.
    change (0 `div` 1)%Z with 0%Z. lia. }
  rewrite Hk.
  replace (Z.to_nat (0 `min` Z.of_nat (length (shuffledIndices app'))))
    with 0%nat by lia.
  rewrite take_0. apply not_elem_of_empty.
Qed.

Lemma colours_cycle_through_palette_witness :
  id (base_of (mkShape (mkBaseShape 3 115 0 35 58) (Some "#222"%string) square))
  = 3%nat /\
  color (mkShape (mkBaseShape 3 115 0 35 58) (Some "#222"%string) square)
  = effectiveColors (colors (fresh_app 0 30 150))
      !! (3 mod length (effectiveColors (colors (fresh_app 0 30 150))))%nat.
Proof.
  apply (colours_cycle_through_palette draws_mixed 50 200 100 0
           (fresh_app 0 30 150) laid_out 27%nat 3%nat
           (mkShape (mkBaseShape 3 115 0 35 58) (Some "#222"%string) square)).
  - exact draws_mixed_unit.
  - exact laid_out_run.
  - vm_compute. reflexivity.
Defined.

(** ** The controls *)

(** X11.  Editing palette entry [k] repaints exactly the shapes of that
    palette slot: a blank shape keeps its colour, a shape that is not blank
    takes the new colour when [id % colors.length] is [k] and keeps its
    colour otherwise; no shape moves. *)
Theorem updateColor_repaints_one_slot app app' k c i b :
  (k < length (colors app))%nat ->
  updateColor k c app = Some app' ->
  baseShapes app !! i = Some b ->
  exists s s',
    generatedShapes app !! i = Some s /\
    generatedShapes app' !! i = Some s' /\
    base_of s' = base_of s /\
    (blank app (id b) -> color s' = color s) /\
    (~ blank app (id b) ->
     ((id b mod length (colors app))%nat = k -> color s' = Some c) /\
     ((id b mod length (colors app))%nat <> k -> color s' = color s)).
Proof.
  intros Hk Hup Hb. unfold updateColor in Hup.
  apply Nat.ltb_lt in Hk as Hk'. rewrite Hk' in Hup. injection Hup as <-.
  do 2 eexists.
  split; [by apply generatedShapes_lookup|].
  split; [by apply (generatedShapes_lookup (set_colors _ app))|].
  simpl. split; [done|].
  assert (Heff : forall cs : list string,
            (0 < length cs)%nat -> effectiveColors cs = cs).
  { intros cs Hcs. unfold effectiveColors.
    apply Nat.ltb_lt in Hcs. by rewrite Hcs. }
  rewrite (Heff (colors app)) by lia.
  rewrite (Heff (<[k:=c]> (colors app))) by (rewrite length_insert; lia).
  unfold shape_color, blank. rewrite length_insert.
  split.
  - intros Hblank. by rewrite !decide_True.
  - intros Hnot. rewrite !decide_False by done. split.
    + intros <-. apply list_lookup_insert_eq.
      apply Nat.mod_upper_bound. lia.
    + intros Hne. by rewrite list_lookup_insert_ne.
Qed.

Lemma updateColor_repaints_one_slot_witness :
  exists s s',
    generatedShapes laid_out !! 3%nat = Some s /\
    generatedShapes (set_colors ["#111"; "#abc"]%string laid_out) !! 3%nat
      = Some s' /\
    base_of s' = base_of s /\
    (blank laid_out (id (mkBaseShape 3 115 0 35 58)) -> color s' = color s) /\
    (~ blank laid_out (id (mkBaseShape 3 115 0 35 58)) ->
     ((id (mkBaseShape 3 115 0 35 58) mod length (colors laid_out))%nat
        = 1%nat -> color s' = Some "#abc"%string) /\
     ((id (mkBaseShape 3 115 0 35 58) mod length (colors laid_out))%nat
        <> 1%nat -> color s' = color s)).
Proof.
  apply (updateColor_repaints_one_slot laid_out
           (set_colors ["#111"; "#abc"]%string laid_out) 1%nat "#abc"%string
           3%nat (mkBaseShape 3 115 0 35 58)).
  - vm_compute. lia.
  - reflexivity.
  - reflexivity.
Defined.

Lemma regenerateLayout_sizes rnd fuel canvasEl cur app app' cur' :
  regenerateLayout rnd fuel canvasEl cur app = Returned (app', cur') ->
  minShapeSize app' = minShapeSize app /\
  maxShapeSize app' = maxShapeSize app.
Proof.
  unfold regenerateLayout. destruct canvasEl as [[W H]|].
  - destruct (partition _ _ _ _ _ _ _ _ _) as [st|]; [|discriminate].
    destruct (shuffle_loop _ _ _ _) as [[indices' c]|]; [|discriminate].
    destruct (ids_at _ _); [|discriminate].
    by intros [= <- <-].
  - by intros [= <- <-].
Qed.

(** X12.  The two size controls keep the bounds ordered, whatever the
    state before and the value entered.  A returning [updateMinShapeSize]
    leaves the entered value as the minimum, leaves the maximum as it was
    unless it was below the value, in which case the maximum is the value
    too, and so leaves [minShapeSize <= maxShapeSize].  A returning
    [updateMaxShapeSize] leaves the entered value as the maximum, leaves the
    minimum as it was unless it was above the value, in which case the
    minimum is the value too, and so leaves [minShapeSize <= maxShapeSize].
    A bound that was an integer stays an integer. *)
Theorem size_controls_keep_bounds_ordered rnd fuel canvasEl (v : Z) cur app
    app' cur' :
  (updateMinShapeSize rnd fuel canvasEl v cur app = Returned (app', cur') ->
   minShapeSize app' = inject_Z v /\
   (inject_Z v <= maxShapeSize app -> maxShapeSize app' = maxShapeSize app) /\
   (maxShapeSize app < inject_Z v -> maxShapeSize app' = inject_Z v) /\
   minShapeSize app' <= maxShapeSize app' /\
   (is_int (maxShapeSize app) ->
    is_int (minShapeSize app') /\ is_int (maxShapeSize app'))) /\
  (updateMaxShapeSize rnd fuel canvasEl v cur app = Returned (app', cur') ->
   maxShapeSize app' = inject_Z v /\
   (minShapeSize app <= inject_Z v -> minShapeSize app' = minShapeSize app) /\
   (inject_Z v < minShapeSize app -> minShapeSize app' = inject_Z v) /\
   minShapeSize app' <= maxShapeSize app' /\
   (is_int (minShapeSize app) ->
    is_int (minShapeSize app') /\ is_int (maxShapeSize app'))).
Proof.
  unfold updateMinShapeSize, updateMaxShapeSize, num_lt, num_gt.
  split; intros Hrun;
    apply regenerateLayout_sizes in Hrun as [Hmin Hmax];
    rewrite Hmin, Hmax; simpl in *.
  - destruct (Qle_bool (inject_Z v) (maxShapeSize app)) eqn:E; simpl in *.
    + apply Qle_bool_iff in E.
      repeat split; auto using is_int_inject. intros Hlt. lra.
    + assert (Hlt : maxShapeSize app < inject_Z v).
      { apply Qnot_le_lt. intros Hle. apply Qle_bool_iff in Hle. congruence. }
      repeat split; auto using is_int_inject; try apply Qle_refl.
      intros Hle. lra.
  - destruct (Qle_bool (minShapeSize app) (inject_Z v)) eqn:E; simpl in *.
    + apply Qle_bool_iff in E.
      repeat split; auto using is_int_inject. intros Hlt. lra.
    + assert (Hlt : inject_Z v < minShapeSize app).
      { apply Qnot_le_lt. intros Hle. apply Qle_bool_iff in Hle. congruence. }
      repeat split; auto using is_int_inject; try apply Qle_refl.
      intros Hle. lra.
Qed.

(** Both controls at work: a minimum of 200 entered over a maximum of 150
    raises the maximum, a maximum of 20 entered under a minimum of 30 lowers
    the minimum. *)
Lemma size_controls_keep_bounds_ordered_witness :
  exists appA curA appB curB,
    updateMinShapeSize draws_low 400 (Some (200, 100)%Z) 200 0 initial_app
      = Returned (appA, curA) /\
    updateMaxShapeSize draws_low 400 (Some (200, 100)%Z) 20 0 initial_app
      = Returned (appB, curB) /\
    (minShapeSize appA = inject_Z 200 /\ maxShapeSize appA = inject_Z 200 /\
     minShapeSize appA <= maxShapeSize appA) /\
    (maxShapeSize appB = inject_Z 20 /\ minShapeSize appB = inject_Z 20 /\
     minShapeSize appB <= maxShapeSize appB).
Proof.
  destruct (updateMinShapeSize draws_low 400 (Some (200, 100)%Z) 200 0
              initial_app) as [[appA curA]| |] eqn:HA;
    [|by vm_compute in HA|by vm_compute in HA].
  destruct (updateMaxShapeSize draws_low 400 (Some (200, 100)%Z) 20 0
              initial_app) as [[appB curB]| |] eqn:HB;
    [|by vm_compute in HB|by vm_compute in HB].
  exists appA, curA, appB, curB. split; [done|]. split; [done|].
  destruct (size_controls_keep_bounds_ordered draws_low 400
              (Some (200, 100)%Z) 200 0 initial_app appA curA)
    as [HminA _].
  destruct (size_controls_keep_bounds_ordered draws_low 400
              (Some (200, 100)%Z) 20 0 initial_app appB curB)
    as [_ HmaxB].
  destruct (HminA HA) as (Ha1 & _ & Ha3 & Ha4 & _).
  destruct (HmaxB HB) as (Hb1 & _ & Hb3 & Hb4 & _).
  split.
  - split; [exact Ha1|]. split; [apply Ha3; by vm_compute | exact Ha4].
  - split; [exact Hb1|]. split; [apply Hb3; by vm_compute | exact Hb4].
Defined.




(** X14.  Entering a maximum size of 0 drags a non-negative minimum down to
    0, and then nothing but the stop test ends the recursion: on a canvas of
    non-negative extents, if the draws never exceed 0.1 the update does not
    return, whatever the fuel. *)
Theorem zero_maxSize_never_returns rnd fuel (W H : Z) cur app :
  (forall n, 0 <= rnd n /\ rnd n <= 1 # 10) ->
  0 <= minShapeSize app ->
  (0 <= W)%Z -> (0 <= H)%Z ->
  updateMaxShapeSize rnd fuel (Some (W, H)) 0 cur app = OutOfFuel.
Proof.
  intros Hlow Hmin HW HH. unfold updateMaxShapeSize, regenerateLayout.
  set (app2 := if num_gt _ _ then _ else _).
  assert (Hzero : minShapeSize app2 == 0).
  { subst app2. unfold num_gt. simpl.
    destruct (Qle_bool (minShapeSize app) (inject_Z 0)) eqn:E; simpl.
    - apply Qle_bool_iff in E. change (inject_Z 0) with 0 in E. lra.
    - reflexivity. }
  rewrite zero_minSize_recurses; [done | exact Hlow | exact Hzero | |];
    change 0 with (inject_Z 0); by rewrite <- Zle_Qle.
Qed.

Lemma zero_maxSize_never_returns_witness :
  updateMaxShapeSize draws_low 1000 (Some (200, 100)%Z) 0 0 initial_app
  = OutOfFuel.
Proof.
  apply (zero_maxSize_never_returns draws_low 1000 200 100 0 initial_app).
  - exact draws_low_stay_low.
  - by vm_compute.
  - lia.
  - lia.
Defined.
